(** * Weather dashboard front end: favorites store, search controller,
      unit conversion.

    A shallow embedding of the client-side logic of the weather dashboard
    (hooks/useFavorites, components/SearchBar, components/WeatherCard,
    components/ForecastCard, App) together with the properties stated about
    it.

    Conventions.
    - A JavaScript string is the list of its UTF-16 code units ([jsstring]);
      [length] is therefore the JavaScript [.length], and [===] on strings
      is equality of lists.
    - A JavaScript number is an IEEE 754 binary64 value ([float]); where a
      property speaks of its distance to another number, its value is the
      real number given by the specification of the primitive floats.
    - [localStorage] is a finite map from keys to strings.
    - React state is passed explicitly; an effect that runs after a render
      is a function from the rendered state to the new outside world. *)

From Stdlib Require Import NArith ZArith List Bool Lia String Ascii.
From Stdlib Require Import Reals Lra.
From Stdlib Require Import Floats.PrimFloat Floats.SpecFloat Floats.FloatOps
  Floats.FloatAxioms.
From stdpp Require Import base option list gmap.

Local Open Scope N_scope.

(** ** JavaScript strings *)

Definition jsstring : Type := list N.

Definition js (s : string) : jsstring :=
  map N_of_ascii (list_ascii_of_string s).

(** The template literal [`${a}-${b}`]. *)
Definition dash : N := 45.

Definition template_dash (a b : jsstring) : jsstring := a ++ dash :: b.

(** ** types/index.ts *)

Record FavoriteCity : Type := mkFavoriteCity {
  name : jsstring;
  country : jsstring;
  id : jsstring
}.

#[global] Instance FavoriteCity_eq_dec : EqDecision FavoriteCity.
Proof. solve_decision. Defined.

(** ** hooks/useFavorites.ts: the state updaters *)

Module Favorites.

(** [prev.some((f) => f.id === city.id)] *)
Definition some_id (target : jsstring) (favs : list FavoriteCity) : bool :=
  existsb (fun f => bool_decide (id f = target)) favs.

(** The updater passed to [setFavorites] by [addFavorite]. *)
Definition addFavorite (city : FavoriteCity) (prev : list FavoriteCity)
  : list FavoriteCity :=
  if some_id (id city) prev then prev else prev ++ [city].

(** The updater passed to [setFavorites] by [removeFavorite]. *)
Definition removeFavorite (target : jsstring) (prev : list FavoriteCity)
  : list FavoriteCity :=
  List.filter (fun f => negb (bool_decide (id f = target))) prev.

(** [isFavorite] reads the state of the current render. *)
Definition isFavorite (target : jsstring) (favorites : list FavoriteCity)
  : bool :=
  some_id target favorites.

(** Number of entries carrying a given id. *)
Definition count_id (target : jsstring) (favs : list FavoriteCity) : nat :=
  length (List.filter (fun f => bool_decide (id f = target)) favs).

(** A call of one of the two mutating functions the hook returns. *)
Inductive operation : Type :=
| Add (city : FavoriteCity)
| Remove (target : jsstring).

(** The updater that call passes to [setFavorites]. *)
Definition apply_operation (op : operation) (prev : list FavoriteCity)
  : list FavoriteCity :=
  match op with
  | Add city => addFavorite city prev
  | Remove target => removeFavorite target prev
  end.

End Favorites.

(** ** types/index.ts: weather data *)

Record CurrentWeather : Type := mkCurrentWeather {
  city_name : jsstring;
  cw_country : jsstring;
  temperature : float;
  feels_like : float;
  cw_description : jsstring;
  cw_icon : jsstring;
  cw_humidity : float;
  cw_wind_speed : float;
  pressure : float;
  cw_temp_min : float;
  cw_temp_max : float
}.

Record ForecastItem : Type := mkForecastItem {
  date : jsstring;
  day_of_week : jsstring;
  temp_min : float;
  temp_max : float;
  description : jsstring;
  icon : jsstring;
  humidity : float;
  wind_speed : float
}.

Record Forecast : Type := mkForecast {
  fc_city_name : jsstring;
  fc_country : jsstring;
  forecast : list ForecastItem
}.

Inductive TemperatureUnit : Type := C | F.

(** ** components/WeatherCard.tsx and components/ForecastCard.tsx *)

Module WeatherCard.

Definition convertToFahrenheit (celsius : float) : float :=
  (celsius * 9) / 5 + 32.

(** [const favoriteId = `${weather.city_name}-${weather.country}`] *)
Definition favoriteId (weather : CurrentWeather) : jsstring :=
  template_dash (city_name weather) (cw_country weather).

Definition displayTemp (unit : TemperatureUnit) (temp : float) : float :=
  match unit with
  | F => convertToFahrenheit temp
  | C => temp
  end.

(** The object literal handed to [addFavorite]. *)
Definition favorite_of (weather : CurrentWeather) : FavoriteCity :=
  {| id := favoriteId weather;
     name := city_name weather;
     country := cw_country weather |}.

(** [handleFavoriteToggle]: the call it makes on the card's own
    [useFavorites] instance. [isFav] was computed from the favorites of
    that instance during the render that installed the handler. *)
Definition handleFavoriteToggle (weather : CurrentWeather)
    (favorites : list FavoriteCity) : Favorites.operation :=
  if Favorites.isFavorite (favoriteId weather) favorites
  then Favorites.Remove (favoriteId weather)
  else Favorites.Add (favorite_of weather).

End WeatherCard.

Module ForecastCard.

Definition convertToFahrenheit (celsius : float) : float :=
  (celsius * 9) / 5 + 32.

Definition displayTemp (unit : TemperatureUnit) (temp : float) : float :=
  match unit with
  | F => convertToFahrenheit temp
  | C => temp
  end.

End ForecastCard.

(** ** The favorites state seen as a transition system *)

Module FavoritesMachine.

Import Favorites.

(** States reachable from the empty list by the hook's operations. *)
Inductive reachable : list FavoriteCity -> Prop :=
| reachable_empty : reachable []
| reachable_step op favs :
    reachable favs -> reachable (apply_operation op favs).

(** What the user interface can do to one favorites state: press the heart
    of a weather card, or press the remove button of a list entry. *)
Inductive ui_action : Type :=
| ToggleFavorite (weather : CurrentWeather)
| RemoveClicked (target : jsstring).

Definition apply_ui (a : ui_action) (favs : list FavoriteCity)
  : list FavoriteCity :=
  match a with
  | ToggleFavorite weather =>
    apply_operation (WeatherCard.handleFavoriteToggle weather favs) favs
  | RemoveClicked target => apply_operation (Remove target) favs
  end.

Inductive ui_reachable : list FavoriteCity -> Prop :=
| ui_reachable_empty : ui_reachable []
| ui_reachable_step a favs :
    ui_reachable favs -> ui_reachable (apply_ui a favs).

(** The uniqueness invariant of the data model. *)
Definition unique_ids (favs : list FavoriteCity) : Prop :=
  NoDup (map id favs).

(** The id of an entry is derived from its name and country. *)
Definition derived_id (f : FavoriteCity) : Prop :=
  id f = template_dash (name f) (country f).

End FavoritesMachine.

(** ** JSON text, as [JSON.parse] reads it and [JSON.stringify] writes it

    The grammar is that of ECMA-404. A number keeps its lexeme. *)

Module JSON.

#[warnings="-register-all"]
Inductive value : Type :=
| JNull
| JBool (b : bool)
| JNumber (lexeme : jsstring)
| JString (s : jsstring)
| JArray (items : list value)
| JObject (members : list (jsstring * value)).

(** Code units of the punctuation. *)
Definition quote_mark : N := 34.
Definition backslash : N := 92.
Definition comma : N := 44.
Definition colon : N := 58.
Definition lbracket : N := 91.
Definition rbracket : N := 93.
Definition lbrace : N := 123.
Definition rbrace : N := 125.

Definition is_ws (c : N) : bool :=
  (c =? 32) || (c =? 9) || (c =? 10) || (c =? 13).

Fixpoint skip_ws (s : jsstring) : jsstring :=
  match s with
  | c :: rest => if is_ws c then skip_ws rest else s
  | [] => []
  end.

Definition is_digit (c : N) : bool := (48 <=? c) && (c <=? 57).

Definition hex_val (c : N) : option N :=
  if is_digit c then Some (c - 48)
  else if (97 <=? c) && (c <=? 102) then Some (c - 87)
  else if (65 <=? c) && (c <=? 70) then Some (c - 55)
  else None.

Definition hex4 (a b c d : N) : option N :=
  match hex_val a, hex_val b, hex_val c, hex_val d with
  | Some x, Some y, Some z, Some w => Some (((x * 16 + y) * 16 + z) * 16 + w)
  | _, _, _, _ => None
  end.

(** The single-character escapes after a backslash. *)
Definition unescape (e : N) : option N :=
  if e =? 34 then Some 34        (* quotation mark *)
  else if e =? 92 then Some 92   (* reverse solidus *)
  else if e =? 47 then Some 47   (* solidus *)
  else if e =? 98 then Some 8    (* b *)
  else if e =? 102 then Some 12  (* f *)
  else if e =? 110 then Some 10  (* n *)
  else if e =? 114 then Some 13  (* r *)
  else if e =? 116 then Some 9   (* t *)
  else None.

Definition cons_char (c : N) (r : option (jsstring * jsstring))
  : option (jsstring * jsstring) :=
  match r with
  | Some (str, rest) => Some (c :: str, rest)
  | None => None
  end.

(** The characters of a string literal, read after its opening quotation
    mark, up to and including the closing one. *)
Fixpoint parse_string_chars (s : jsstring) : option (jsstring * jsstring) :=
  match s with
  | [] => None
  | c :: rest =>
    if c =? quote_mark then Some ([], rest)
    else if c =? backslash then
      match rest with
      | [] => None
      | e :: rest' =>
        if e =? 117 then
          match rest' with
          | h1 :: h2 :: h3 :: h4 :: rest'' =>
            match hex4 h1 h2 h3 h4 with
            | Some u => cons_char u (parse_string_chars rest'')
            | None => None
            end
          | _ => None
          end
        else
          match unescape e with
          | Some u => cons_char u (parse_string_chars rest')
          | None => None
          end
      end
    else if c <? 32 then None
    else cons_char c (parse_string_chars rest)
  end.

Fixpoint take_digits (s : jsstring) : jsstring * jsstring :=
  match s with
  | c :: rest =>
    if is_digit c
    then let '(ds, r) := take_digits rest in (c :: ds, r)
    else ([], s)
  | [] => ([], [])
  end.

(** One or more digits. *)
Definition digits1 (s : jsstring) : option (jsstring * jsstring) :=
  match take_digits s with
  | ([], _) => None
  | (ds, r) => Some (ds, r)
  end.

(** The integer part: a single zero, or a non-zero digit and more digits. *)
Definition int_part (s : jsstring) : option (jsstring * jsstring) :=
  match s with
  | c :: rest =>
    if c =? 48 then Some ([c], rest)
    else if is_digit c
    then let '(ds, r) := take_digits rest in Some (c :: ds, r)
    else None
  | [] => None
  end.

Definition frac_part (s : jsstring) : option (jsstring * jsstring) :=
  match s with
  | c :: rest =>
    if c =? 46 then
      match digits1 rest with
      | Some (ds, r) => Some (c :: ds, r)
      | None => None
      end
    else Some ([], s)
  | [] => Some ([], [])
  end.

Definition exp_part (s : jsstring) : option (jsstring * jsstring) :=
  match s with
  | c :: rest =>
    if (c =? 101) || (c =? 69) then
      match rest with
      | sg :: rest' =>
        if (sg =? 43) || (sg =? 45) then
          match digits1 rest' with
          | Some (ds, r) => Some (c :: sg :: ds, r)
          | None => None
          end
        else
          match digits1 rest with
          | Some (ds, r) => Some (c :: ds, r)
          | None => None
          end
      | [] => None
      end
    else Some ([], s)
  | [] => Some ([], [])
  end.

Definition unsigned_number (s : jsstring) : option (jsstring * jsstring) :=
  match int_part s with
  | Some (i, r1) =>
    match frac_part r1 with
    | Some (f, r2) =>
      match exp_part r2 with
      | Some (e, r3) => Some (i ++ f ++ e, r3)
      | None => None
      end
    | None => None
    end
  | None => None
  end.

Definition parse_number (s : jsstring) : option (jsstring * jsstring) :=
  match s with
  | c :: rest =>
    if c =? 45 then
      match unsigned_number rest with
      | Some (l, r) => Some (c :: l, r)
      | None => None
      end
    else unsigned_number s
  | [] => None
  end.

(** [strip_prefix p s] is what follows [p] in [s]. *)
Fixpoint strip_prefix (p s : jsstring) : option jsstring :=
  match p, s with
  | [], _ => Some s
  | a :: p', b :: s' => if a =? b then strip_prefix p' s' else None
  | _ :: _, [] => None
  end.

Inductive parsed (A : Type) : Type :=
| Parsed (a : A) (rest : jsstring)
| SyntaxError
| OutOfFuel.
Arguments Parsed {A} a rest.
Arguments SyntaxError {A}.
Arguments OutOfFuel {A}.

(** Recursive descent. [parse_value] reads one value after optional white
    space; [parse_elements] reads the elements of a non-empty array up to
    and including the closing bracket; [parse_members] does the same for an
    object. The fuel bounds the number of nested calls. *)
Fixpoint parse_value (fuel : nat) (s : jsstring) : parsed value :=
  match fuel with
  | O => OutOfFuel
  | S fuel' =>
    match skip_ws s with
    | [] => SyntaxError
    | c :: rest =>
      if c =? quote_mark then
        match parse_string_chars rest with
        | Some (str, r) => Parsed (JString str) r
        | None => SyntaxError
        end
      else if c =? lbracket then
        match skip_ws rest with
        | c2 :: r2 =>
          if c2 =? rbracket then Parsed (JArray []) r2
          else
            match parse_elements fuel' rest with
            | Parsed items r => Parsed (JArray items) r
            | SyntaxError => SyntaxError
            | OutOfFuel => OutOfFuel
            end
        | [] => SyntaxError
        end
      else if c =? lbrace then
        match skip_ws rest with
        | c2 :: r2 =>
          if c2 =? rbrace then Parsed (JObject []) r2
          else
            match parse_members fuel' rest with
            | Parsed members r => Parsed (JObject members) r
            | SyntaxError => SyntaxError
            | OutOfFuel => OutOfFuel
            end
        | [] => SyntaxError
        end
      else if c =? 116 then
        match strip_prefix [114; 117; 101] rest with
        | Some r => Parsed (JBool true) r
        | None => SyntaxError
        end
      else if c =? 102 then
        match strip_prefix [97; 108; 115; 101] rest with
        | Some r => Parsed (JBool false) r
        | None => SyntaxError
        end
      else if c =? 110 then
        match strip_prefix [117; 108; 108] rest with
        | Some r => Parsed JNull r
        | None => SyntaxError
        end
      else
        match parse_number (c :: rest) with
        | Some (l, r) => Parsed (JNumber l) r
        | None => SyntaxError
        end
    end
  end

with parse_elements (fuel : nat) (s : jsstring) : parsed (list value) :=
  match fuel with
  | O => OutOfFuel
  | S fuel' =>
    match parse_value fuel' s with
    | Parsed v r =>
      match skip_ws r with
      | c :: r' =>
        if c =? comma then
          match parse_elements fuel' r' with
          | Parsed vs r'' => Parsed (v :: vs) r''
          | SyntaxError => SyntaxError
          | OutOfFuel => OutOfFuel
          end
        else if c =? rbracket then Parsed [v] r'
        else SyntaxError
      | [] => SyntaxError
      end
    | SyntaxError => SyntaxError
    | OutOfFuel => OutOfFuel
    end
  end

with parse_members (fuel : nat) (s : jsstring)
  : parsed (list (jsstring * value)) :=
  match fuel with
  | O => OutOfFuel
  | S fuel' =>
    match skip_ws s with
    | c :: rest =>
      if c =? quote_mark then
        match parse_string_chars rest with
        | Some (key, r) =>
          match skip_ws r with
          | c2 :: r2 =>
            if c2 =? colon then
              match parse_value fuel' r2 with
              | Parsed v r3 =>
                match skip_ws r3 with
                | c3 :: r4 =>
                  if c3 =? comma then
                    match parse_members fuel' r4 with
                    | Parsed ms r5 => Parsed ((key, v) :: ms) r5
                    | SyntaxError => SyntaxError
                    | OutOfFuel => OutOfFuel
                    end
                  else if c3 =? rbrace then Parsed [(key, v)] r4
                  else SyntaxError
                | [] => SyntaxError
                end
              | SyntaxError => SyntaxError
              | OutOfFuel => OutOfFuel
              end
            else SyntaxError
          | [] => SyntaxError
          end
        | None => SyntaxError
        end
      else SyntaxError
    | [] => SyntaxError
    end
  end.

(** Fuel that never runs out on a text of this length (see
    [parse_value_fuel]). *)
Definition fuel_for (s : jsstring) : nat := S (2 * length s).

(** [JSON.parse]: [None] is the [SyntaxError] exception. A value must be
    followed by white space only. *)
(** What a run of the parser with enough fuel looks like: it does not run
    out, and a value it returns has consumed some of the text. *)
Definition consumed {A : Type} (s : jsstring) (res : parsed A) : Prop :=
  match res with
  | Parsed _ r => (length r < length s)%nat
  | SyntaxError => True
  | OutOfFuel => False
  end.

Definition parse (text : jsstring) : option value :=
  match parse_value (fuel_for text) text with
  | Parsed v rest =>
    match skip_ws rest with
    | [] => Some v
    | _ :: _ => None
    end
  | SyntaxError => None
  | OutOfFuel => None
  end.

(** *** Serialization *)

Definition hex_digit (d : N) : N := if d <? 10 then 48 + d else 87 + d.

(** The six characters of a [\uXXXX] escape, lower-case hexadecimal. *)
Definition unicode_escape (c : N) : jsstring :=
  [backslash; 117;
   hex_digit ((c / 4096) mod 16); hex_digit ((c / 256) mod 16);
   hex_digit ((c / 16) mod 16); hex_digit (c mod 16)].

Definition is_high_surrogate (c : N) : bool := (55296 <=? c) && (c <=? 56319).
Definition is_low_surrogate (c : N) : bool := (56320 <=? c) && (c <=? 57343).

(** The characters between the quotation marks of a serialized string:
    the two-character escapes, [\uXXXX] for the other control characters
    and for lone surrogates, anything else as it is. *)
Fixpoint quote_chars (s : jsstring) : jsstring :=
  match s with
  | [] => []
  | c :: rest =>
    if c =? 34 then backslash :: 34 :: quote_chars rest
    else if c =? 92 then backslash :: 92 :: quote_chars rest
    else if c =? 8 then backslash :: 98 :: quote_chars rest
    else if c =? 9 then backslash :: 116 :: quote_chars rest
    else if c =? 10 then backslash :: 110 :: quote_chars rest
    else if c =? 12 then backslash :: 102 :: quote_chars rest
    else if c =? 13 then backslash :: 114 :: quote_chars rest
    else if c <? 32 then unicode_escape c ++ quote_chars rest
    else if is_high_surrogate c then
      match rest with
      | d :: rest' =>
        if is_low_surrogate d then c :: d :: quote_chars rest'
        else unicode_escape c ++ quote_chars rest
      | [] => unicode_escape c
      end
    else if is_low_surrogate c then unicode_escape c ++ quote_chars rest
    else c :: quote_chars rest
  end.

Definition quote (s : jsstring) : jsstring :=
  quote_mark :: quote_chars s ++ [quote_mark].

Fixpoint join_comma (parts : list jsstring) : jsstring :=
  match parts with
  | [] => []
  | [p] => p
  | p :: more => p ++ comma :: join_comma more
  end.

(** [JSON.stringify] without indentation. *)
Fixpoint stringify (v : value) : jsstring :=
  match v with
  | JNull => js "null"
  | JBool true => js "true"
  | JBool false => js "false"
  | JNumber lexeme => lexeme
  | JString s => quote s
  | JArray items => lbracket :: join_comma (map stringify items) ++ [rbracket]
  | JObject members =>
    lbrace ::
    join_comma (map (fun m => quote (fst m) ++ colon :: stringify (snd m))
                    members)
    ++ [rbrace]
  end.

End JSON.

(** ** FavoriteCity[] as JSON *)

Module FavoriteJson.

Import JSON.

(** The object literal [{ id, name, country }] of the weather card, with its
    keys in insertion order. *)
Definition encode_favorite (f : FavoriteCity) : value :=
  JObject [(js "id", JString (id f));
           (js "name", JString (name f));
           (js "country", JString (country f))].

Definition encode (favs : list FavoriteCity) : value :=
  JArray (map encode_favorite favs).

(** A parsed value is read back as a [FavoriteCity] when it has exactly the
    shape above. *)
Definition decode_favorite (v : value) : option FavoriteCity :=
  match v with
  | JObject [(k1, JString i); (k2, JString n); (k3, JString c)] =>
    if bool_decide (k1 = js "id") && bool_decide (k2 = js "name")
       && bool_decide (k3 = js "country")
    then Some {| id := i; name := n; country := c |}
    else None
  | _ => None
  end.

Fixpoint decode_all (items : list value) : option (list FavoriteCity) :=
  match items with
  | [] => Some []
  | v :: more =>
    match decode_favorite v, decode_all more with
    | Some f, Some fs => Some (f :: fs)
    | _, _ => None
    end
  end.

Definition decode (v : value) : option (list FavoriteCity) :=
  match v with
  | JArray items => decode_all items
  | _ => None
  end.

(** [JSON.stringify(favorites)] *)
Definition stringify_favorites (favs : list FavoriteCity) : jsstring :=
  stringify (encode favs).

(** The serialized elements of the array. *)
Definition favorite_texts (favs : list FavoriteCity) : list jsstring :=
  map stringify (map FavoriteJson.encode_favorite favs).

End FavoriteJson.

(** ** hooks/useFavorites.ts: one instance of the hook

    Every component that calls [useFavorites()] owns one [useState] cell;
    [localStorage] is the only thing the instances have in common. *)

Module UseFavorites.

Definition STORAGE_KEY : jsstring := js "weather-favorites".

(** The browser's storage, and the [setItem] calls made so far. *)
Record world : Type := mkWorld {
  localStorage : gmap jsstring jsstring;
  setItem_log : list (jsstring * jsstring)
}.

Definition setItem (key text : jsstring) (w : world) : world :=
  {| localStorage := <[key := text]> (localStorage w);
     setItem_log := setItem_log w ++ [(key, text)] |}.

Definition getItem (key : jsstring) (w : world) : option jsstring :=
  localStorage w !! key.

(** What the lazy initializer of [useState] does. *)
Inductive hydration : Type :=
| Hydrated (favorites : list FavoriteCity)
    (* the state is a FavoriteCity[] *)
| HydratedOther (v : JSON.value)
    (* the text parsed, to a value that is not a FavoriteCity[] written by
       this hook; the state is that value *)
| Thrown.
    (* JSON.parse threw a SyntaxError out of the initializer *)

(** [stored ? JSON.parse(stored) : []]: [null] and the empty string are
    falsy. *)
Definition initializer (stored : option jsstring) : hydration :=
  match stored with
  | None => Hydrated []
  | Some [] => Hydrated []
  | Some (c :: text) =>
    match JSON.parse (c :: text) with
    | Some v =>
      match FavoriteJson.decode v with
      | Some favs => Hydrated favs
      | None => HydratedOther v
      end
    | None => Thrown
    end
  end.

Definition hydrate (w : world) : hydration :=
  initializer (getItem STORAGE_KEY w).

(** The effect [localStorage.setItem(STORAGE_KEY, JSON.stringify(favorites))]
    with dependency list [[favorites]]. *)
Definition persist (favorites : list FavoriteCity) (w : world) : world :=
  setItem STORAGE_KEY (FavoriteJson.stringify_favorites favorites) w.

(** Mounting: the initializer runs during the first render and the effect
    after it. [None] when the component did not get as far as a
    FavoriteCity[] state. *)
Definition mount (w : world) : option (list FavoriteCity * world) :=
  match hydrate w with
  | Hydrated favs => Some (favs, persist favs w)
  | HydratedOther _ => None
  | Thrown => None
  end.

(** Whether an updater hands back the very array it was given. React then
    keeps the state, does not render again and does not run the effect. *)
Definition returns_prev (op : Favorites.operation)
    (prev : list FavoriteCity) : bool :=
  match op with
  | Favorites.Add city => Favorites.some_id (id city) prev
  | Favorites.Remove _ => false
  end.

(** One call of [addFavorite] or [removeFavorite] from an event handler,
    with the render and the effect that follow it. *)
Definition dispatch (op : Favorites.operation)
    (st : list FavoriteCity * world) : list FavoriteCity * world :=
  let '(favorites, w) := st in
  if returns_prev op favorites then (favorites, w)
  else
    let favorites' := Favorites.apply_operation op favorites in
    (favorites', persist favorites' w).

Definition run (ops : list Favorites.operation)
    (st : list FavoriteCity * world) : list FavoriteCity * world :=
  fold_left (fun st op => dispatch op st) ops st.

End UseFavorites.

(** ** The components that call the hook, side by side

    [WeatherCard] and [FavoritesList] are both children of [App]; each has
    its own instance of the hook, over the same storage. *)

Module Components.

Import UseFavorites.

Record mounted : Type := mkMounted {
  card : list FavoriteCity;    (* favorites of WeatherCard's instance *)
  panel : list FavoriteCity;   (* favorites of FavoritesList's instance *)
  outside : world
}.

(** Both children mount in one commit: both initializers run while
    rendering, then both effects. *)
Definition mount_both (w : world) : option mounted :=
  match hydrate w with
  | Hydrated favs =>
    Some {| card := favs; panel := favs;
            outside := persist favs (persist favs w) |}
  | HydratedOther _ => None
  | Thrown => None
  end.

(** The heart button of the weather card. *)
Definition press_heart (weather : CurrentWeather) (m : mounted) : mounted :=
  let op := WeatherCard.handleFavoriteToggle weather (card m) in
  let '(card', w') := dispatch op (card m, outside m) in
  {| card := card'; panel := panel m; outside := w' |}.

(** The remove button of an entry of the favorites panel. *)
Definition press_remove (target : jsstring) (m : mounted) : mounted :=
  let '(panel', w') :=
    dispatch (Favorites.Remove target) (panel m, outside m) in
  {| card := card m; panel := panel'; outside := w' |}.

(** What the panel shows: [null] for an empty list, else the entries. *)
Definition panel_entries (m : mounted) : list FavoriteCity := panel m.

(** The heart of the card is filled when [isFavorite(favoriteId)]. *)
Definition heart_filled (weather : CurrentWeather) (m : mounted) : bool :=
  Favorites.isFavorite (WeatherCard.favoriteId weather) (card m).

End Components.

(** A single store shared by the components, as the specification
    describes it: one favorites list, which every component reads and
    every mutation updates. *)

Module SharedStore.

Definition add (city : FavoriteCity) (store : list FavoriteCity) :=
  Favorites.addFavorite city store.

Definition remove (target : jsstring) (store : list FavoriteCity) :=
  Favorites.removeFavorite target store.

Definition isFavorite (target : jsstring) (store : list FavoriteCity) :=
  Favorites.isFavorite target store.

Definition list_ (store : list FavoriteCity) : list FavoriteCity := store.

(** The weather card's toggle, acting on the shared store. *)
Definition press_heart (weather : CurrentWeather)
    (store : list FavoriteCity) : list FavoriteCity :=
  if isFavorite (WeatherCard.favoriteId weather) store
  then remove (WeatherCard.favoriteId weather) store
  else add (WeatherCard.favorite_of weather) store.

End SharedStore.

(** ** App.tsx: the state of the page and the unit toggle *)

Module App.

Record state : Type := mkState {
  currentWeather : option CurrentWeather;
  forecast : option Forecast;
  loading : bool;
  error : option jsstring;
  unit : TemperatureUnit
}.

(** [onUnitToggle={() => setUnit(unit === 'C' ? 'F' : 'C')}] *)
Definition onUnitToggle (s : state) : state :=
  {| currentWeather := currentWeather s;
     forecast := forecast s;
     loading := loading s;
     error := error s;
     unit := match unit s with C => F | F => C end |}.

End App.

(** ** components/SearchBar.tsx *)

Record CitySearchResult : Type := mkCitySearchResult {
  csr_name : jsstring;
  csr_country : jsstring;
  csr_state : option jsstring;
  lat : float;
  lon : float
}.

Record CitySearchResponse : Type := mkCitySearchResponse {
  results : list CitySearchResult
}.

Module SearchBar.

(** The debounce delay, in milliseconds. *)
Definition DELAY : nat := 300.

(** A timer armed by [setTimeout]: the time left before it fires and the
    query its callback closed over. *)
Record timer : Type := mkTimer {
  remaining : nat;
  captured : jsstring
}.

(** The four state cells, the timer behind [timeoutRef], and what the
    component has done to the outside: the [searchCities] calls it issued,
    the lines it wrote with [console.error], and the arguments it passed to
    [onSelectCity]. *)
Record state : Type := mkState {
  query : jsstring;
  found : list CitySearchResult;      (* the [results] cell *)
  isOpen : bool;
  isLoading : bool;
  pending : option timer;
  calls : list jsstring;
  console : list jsstring;
  selected : list jsstring
}.

(** After the first render and its effects: the query is empty, so the
    debounce effect returns before arming a timer. *)
Definition initial : state :=
  {| query := []; found := []; isOpen := false; isLoading := false;
     pending := None; calls := []; console := []; selected := [] |}.

(** The debounce effect for a new value of [query], preceded by the
    cleanup of the previous run; both clear the timer. *)
Definition query_effect (value : jsstring) (s : state) : state :=
  if (length value <? 2)%nat then
    {| query := value; found := []; isOpen := false;
       isLoading := isLoading s; pending := None;
       calls := calls s; console := console s; selected := selected s |}
  else
    {| query := value; found := found s; isOpen := isOpen s;
       isLoading := true;
       pending := Some {| remaining := DELAY; captured := value |};
       calls := calls s; console := console s; selected := selected s |}.

(** [setQuery(value)]: an unchanged value leaves the state, and with it the
    dependency of the effect, as it is. *)
Definition setQuery (value : jsstring) (s : state) : state :=
  if bool_decide (value = query s) then s else query_effect value s.

(** The timer callback starts [weatherApi.searchCities(query)]. *)
Definition fire (t : timer) (s : state) : state :=
  {| query := query s; found := found s; isOpen := isOpen s;
     isLoading := isLoading s; pending := None;
     calls := calls s ++ [captured t];
     console := console s; selected := selected s |}.

(** [ms] milliseconds go by without any event. *)
Definition elapse (ms : nat) (s : state) : state :=
  match pending s with
  | None => s
  | Some t =>
    if (remaining t <=? ms)%nat then fire t s
    else
      {| query := query s; found := found s; isOpen := isOpen s;
         isLoading := isLoading s;
         pending := Some {| remaining := remaining t - ms;
                            captured := captured t |};
         calls := calls s; console := console s; selected := selected s |}
  end.

(** The [try] branch once the awaited call has resolved, then [finally]. *)
Definition on_resolved (response : CitySearchResponse) (s : state) : state :=
  {| query := query s; found := results response; isOpen := true;
     isLoading := false; pending := pending s;
     calls := calls s; console := console s; selected := selected s |}.

(** The [catch] branch, then [finally]. *)
Definition on_rejected (error : jsstring) (s : state) : state :=
  {| query := query s; found := []; isOpen := isOpen s;
     isLoading := false; pending := pending s;
     calls := calls s; console := console s ++ [error];
     selected := selected s |}.

Definition handleClickOutside (s : state) : state :=
  {| query := query s; found := found s; isOpen := false;
     isLoading := isLoading s; pending := pending s;
     calls := calls s; console := console s; selected := selected s |}.

Definition comma_space : jsstring := [44; 32].

(** The string [handleSelect] composes: [city.state ? ... : ...], where an
    absent state and the empty string are both falsy. *)
Definition cityName (city : CitySearchResult) : jsstring :=
  match csr_state city with
  | Some (c :: st) =>
    csr_name city ++ comma_space ++ (c :: st) ++ comma_space
    ++ csr_country city
  | Some [] => csr_name city ++ comma_space ++ csr_country city
  | None => csr_name city ++ comma_space ++ csr_country city
  end.

Definition handleSelect (city : CitySearchResult) (s : state) : state :=
  let s1 := setQuery [] s in
  {| query := query s1; found := found s1; isOpen := false;
     isLoading := isLoading s1; pending := pending s1;
     calls := calls s1; console := console s1;
     selected := selected s1 ++ [cityName city] |}.

Inductive event : Type :=
| Change (value : jsstring)          (* the input's onChange *)
| Elapse (ms : nat)                  (* time goes by *)
| Resolved (response : CitySearchResponse)
| Rejected (error : jsstring)
| MouseDownOutside
| Select (city : CitySearchResult).

Definition step (e : event) (s : state) : state :=
  match e with
  | Change value => setQuery value s
  | Elapse ms => elapse ms s
  | Resolved response => on_resolved response s
  | Rejected error => on_rejected error s
  | MouseDownOutside => handleClickOutside s
  | Select city => handleSelect city s
  end.

Definition run (events : list event) (s : state) : state :=
  fold_left (fun s e => step e s) events s.

(** What is on the screen. *)
Record view : Type := mkView {
  input_value : jsstring;
  spinner : bool;
  dropdown : option (list CitySearchResult)
}.

(** The dropdown is rendered when [isOpen && results.length > 0]. *)
Definition render (s : state) : view :=
  {| input_value := query s;
     spinner := isLoading s;
     dropdown := if isOpen s && (0 <? length (found s))%nat
                 then Some (found s) else None |}.

(** The query text an event leaves in the input. *)
Definition query_after (e : event) (current : jsstring) : jsstring :=
  match e with
  | Change value => value
  | Select _ => []
  | _ => current
  end.

(** The calls the description of the search controller asks for: a query
    of at least two characters is sent when it has stayed unedited for the
    whole delay, once. [current] is the text in the input, [quiet] the time
    it has stayed unedited. *)
Fixpoint expected_calls (current : jsstring) (quiet : nat)
    (events : list event) : list jsstring :=
  match events with
  | [] => []
  | Elapse ms :: more =>
    (if (2 <=? length current)%nat && (quiet <? DELAY)%nat
        && (DELAY <=? quiet + ms)%nat
     then [current] else [])
    ++ expected_calls current (quiet + ms) more
  | e :: more =>
    if bool_decide (query_after e current = current)
    then expected_calls current quiet more
    else expected_calls (query_after e current) 0 more
  end.

(** How the timer of a state relates to the time its query has stayed
    unedited. *)
Definition timer_tracks (s : state) (quiet : nat) : Prop :=
  match pending s with
  | Some t =>
    captured t = query s /\ (2 <= length (query s))%nat /\
    (remaining t + quiet = DELAY)%nat /\ (0 < remaining t)%nat
  | None => (length (query s) < 2)%nat \/ (DELAY <= quiet)%nat
  end.

End SearchBar.

(** The inverse of the affine map of [convertToFahrenheit], as a test of
    the round trip would write it. It is not part of the application. *)
Definition convertToCelsius (fahrenheit : float) : float :=
  ((fahrenheit - 32) * 5) / 9.

(** ** Numbers as reals

    The real number that a binary64 value stands for, read off the
    specification of the primitive floats ([Prim2SF]): sign, mantissa and
    exponent. Infinities and NaN stand for no number. *)

Definition sgn (s : bool) : R := if s then (-1)%R else 1%R.

Definition SF2R (x : spec_float) : R :=
  match x with
  | S754_finite s m e => (sgn s * (IZR (Z.pos m) * powerRZ 2 e))%R
  | _ => 0%R
  end.

Definition SFfinite (x : spec_float) : bool :=
  match x with
  | S754_finite _ _ _ => true
  | S754_zero _ => true
  | _ => false
  end.

Definition number_value (x : float) : option R :=
  match Prim2SF x with
  | S754_zero _ => Some 0%R
  | S754_finite s m e => Some (SF2R (S754_finite s m e))
  | _ => None
  end.

(** One rounded operation whose exact result has magnitude at most
    [safe_range] is off by at most [rel_err] times that result plus
    [abs_err], the least positive binary64 number. *)
Definition rel_err : R := powerRZ 2 (-52).
Definition abs_err : R := powerRZ 2 (-1074).
Definition safe_range : R := (3 * powerRZ 2 1022)%R.

(** What [binary_round_aux] returns for the rounded mantissa [m1] at
    exponent [E]: a zero, or the normalised [m1 * 2^E] if its exponent is in
    range and an infinity otherwise. *)
Definition rounded (z : spec_float) (sx : bool) (m1 E : Z) : Prop :=
  (m1 = 0 /\ z = S754_zero sx)%Z \/
  (exists m'' e'',
     0 < m1 /\ Z.pos m'' * 2 ^ (e'' - E) = m1 /\ E <= e'' /\
     (-1074 < e'' -> 2 ^ 52 <= Z.pos m'') /\
     z = if e'' <=? 971 then S754_finite sx m'' e'' else S754_infinity sx)%Z.

(** ** Sample data *)

Definition london : FavoriteCity :=
  {| name := js "London"; country := js "GB"; id := js "London-GB" |}.

Definition paris : FavoriteCity :=
  {| name := js "Paris"; country := js "FR"; id := js "Paris-FR" |}.

Definition london_weather : CurrentWeather :=
  {| city_name := js "London"; cw_country := js "GB";
     temperature := 12.5; feels_like := 11; cw_description := js "light rain";
     cw_icon := js "10d"; cw_humidity := 81; cw_wind_speed := 4.5;
     pressure := 1012; cw_temp_min := 10; cw_temp_max := 14 |}.

(** Storage that holds nothing, and storage whose record is not JSON. *)
Definition fresh_world : UseFavorites.world :=
  {| UseFavorites.localStorage := ∅; UseFavorites.setItem_log := [] |}.

Definition corrupt_world : UseFavorites.world :=
  {| UseFavorites.localStorage :=
       {[ UseFavorites.STORAGE_KEY := js "[{oops" ]};
     UseFavorites.setItem_log := [] |}.

(** Storage in which an earlier session saved Paris. *)
Definition paris_world : UseFavorites.world :=
  UseFavorites.persist [paris] fresh_world.

(** Typing "London" letter by letter, then a comma before the delay is
    over, then nothing for the whole delay. *)
Definition typing_london_comma : list SearchBar.event :=
  [SearchBar.Change (js "L"); SearchBar.Elapse 80;
   SearchBar.Change (js "Lo"); SearchBar.Elapse 80;
   SearchBar.Change (js "Lon"); SearchBar.Elapse 80;
   SearchBar.Change (js "Lond"); SearchBar.Elapse 80;
   SearchBar.Change (js "Londo"); SearchBar.Elapse 80;
   SearchBar.Change (js "London"); SearchBar.Elapse 299;
   SearchBar.Change (js "London,"); SearchBar.Elapse 300].

(** Typing "a" and waiting. *)
Definition typing_a : list SearchBar.event :=
  [SearchBar.Change (js "a"); SearchBar.Elapse 4000].

(** A finite number so large that nine times it is not. *)
Definition huge : float := 0x1p1023%float.


(** ** App.tsx: fetching *)

Module Fetch.

(** What the [catch] block reads from the rejection: the [detail] of the
    response body, when there is a response and it has one, and the
    [message] of the error; each is a string when it is there. *)
Record rejection : Type := mkRejection {
  detail : option jsstring;     (* err.response?.data?.detail *)
  message : option jsstring     (* err.message *)
}.

Definition FALLBACK : jsstring := js "Failed to fetch weather data".

(** [a || b] for [a] a string or undefined: the empty string is falsy. *)
Definition or_else (a : option jsstring) (b : jsstring) : jsstring :=
  match a with
  | Some (c :: s) => c :: s
  | Some [] => b
  | None => b
  end.

(** [err.response?.data?.detail || err.message || 'Failed to fetch ...'] *)
Definition errorMessage (err : rejection) : jsstring :=
  or_else (detail err) (or_else (message err) FALLBACK).

(** [fetchWeather] up to its [await]. *)
Definition started (s : App.state) : App.state :=
  {| App.currentWeather := App.currentWeather s;
     App.forecast := App.forecast s;
     App.loading := true;
     App.error := None;
     App.unit := App.unit s |}.

(** The rest of the [try] block, then [finally]. *)
Definition succeeded (weatherData : CurrentWeather) (forecastData : Forecast)
    (s : App.state) : App.state :=
  {| App.currentWeather := Some weatherData;
     App.forecast := Some forecastData;
     App.loading := false;
     App.error := App.error s;
     App.unit := App.unit s |}.

(** The [catch] block, then [finally]. *)
Definition failed (err : rejection) (s : App.state) : App.state :=
  {| App.currentWeather := None;
     App.forecast := None;
     App.loading := false;
     App.error := Some (errorMessage err);
     App.unit := App.unit s |}.

Definition initial : App.state :=
  {| App.currentWeather := None; App.forecast := None;
     App.loading := false; App.error := None; App.unit := C |}.

Inductive event : Type :=
| Started
| Succeeded (weatherData : CurrentWeather) (forecastData : Forecast)
| Failed (err : rejection)
| UnitToggled.

Definition step (e : event) (s : App.state) : App.state :=
  match e with
  | Started => started s
  | Succeeded w f => succeeded w f s
  | Failed err => failed err s
  | UnitToggled => App.onUnitToggle s
  end.

Definition run (events : list event) (s : App.state) : App.state :=
  fold_left (fun s e => step e s) events s.

(** The parts of the page that depend on the state. *)
Record page : Type := mkPage {
  banner : option jsstring;          (* {error && ...} *)
  spinner : bool;                    (* {loading && ...} *)
  weather_card : option CurrentWeather;
  forecast_card : option Forecast;
  favorites_panel : bool;
  hint : bool                        (* "Search for a city to get started" *)
}.

(** A string state is truthy when it is not empty. *)
Definition truthy (e : option jsstring) : bool :=
  match e with
  | Some (_ :: _) => true
  | _ => false
  end.

Definition render (s : App.state) : page :=
  {| banner := if truthy (App.error s) then App.error s else None;
     spinner := App.loading s;
     weather_card := if App.loading s then None else App.currentWeather s;
     forecast_card := if App.loading s then None else App.forecast s;
     favorites_panel := negb (App.loading s);
     hint := negb (App.loading s)
             && negb (bool_decide (is_Some (App.currentWeather s)))
             && negb (App.loading s) && negb (truthy (App.error s)) |}.

(** Both data cells are filled or both are empty, and the error is never
    the empty string. *)
Definition settled (s : App.state) : Prop :=
  (is_Some (App.currentWeather s) <-> is_Some (App.forecast s)) /\
  App.error s <> Some [].

End Fetch.

(** ** services/api.ts: the request paths *)

Module WeatherApi.

(** The characters [encodeURIComponent] leaves as they are: letters,
    digits and [- _ . ! ~ * ' ( )]. *)
Definition is_unreserved (c : N) : bool :=
  ((65 <=? c) && (c <=? 90)) || ((97 <=? c) && (c <=? 122))
  || ((48 <=? c) && (c <=? 57))
  || (c =? 45) || (c =? 95) || (c =? 46) || (c =? 33) || (c =? 126)
  || (c =? 42) || (c =? 39) || (c =? 40) || (c =? 41).

Definition upper_hex_digit (d : N) : N := if d <? 10 then 48 + d else 55 + d.

Definition percent : N := 37.

(** [%XX] for one octet. *)
Definition percent_octet (b : N) : jsstring :=
  [percent; upper_hex_digit ((b / 16) mod 16); upper_hex_digit (b mod 16)].

(** The UTF-8 octets of a code point. *)
Definition utf8 (cp : N) : list N :=
  if cp <? 128 then [cp]
  else if cp <? 2048 then [192 + cp / 64; 128 + cp mod 64]
  else if cp <? 65536 then
    [224 + cp / 4096; 128 + (cp / 64) mod 64; 128 + cp mod 64]
  else
    [240 + cp / 262144; 128 + (cp / 4096) mod 64;
     128 + (cp / 64) mod 64; 128 + cp mod 64].

Definition escape_code_point (cp : N) : jsstring :=
  concat (map percent_octet (utf8 cp)).

(** The code point of a surrogate pair. *)
Definition pair_code_point (high low : N) : N :=
  (high - 55296) * 1024 + (low - 56320) + 65536.

(** [encodeURIComponent]; [None] is the [URIError] it throws on a lone
    surrogate. *)
Fixpoint encodeURIComponent (s : jsstring) : option jsstring :=
  match s with
  | [] => Some []
  | c :: rest =>
    if is_unreserved c then
      match encodeURIComponent rest with
      | Some r => Some (c :: r)
      | None => None
      end
    else if JSON.is_high_surrogate c then
      match rest with
      | d :: rest' =>
        if JSON.is_low_surrogate d then
          match encodeURIComponent rest' with
          | Some r => Some (escape_code_point (pair_code_point c d) ++ r)
          | None => None
          end
        else None
      | [] => None
      end
    else if JSON.is_low_surrogate c then None
    else
      match encodeURIComponent rest with
      | Some r => Some (escape_code_point c ++ r)
      | None => None
      end
  end.

(** The path [`/api/weather/${encodeURIComponent(city)}`] that
    [getCurrentWeather] requests. *)
Definition getCurrentWeather_path (city : jsstring) : option jsstring :=
  match encodeURIComponent city with
  | Some segment => Some (js "/api/weather/" ++ segment)
  | None => None
  end.

(** The path [`/api/weather/${encodeURIComponent(city)}/forecast`]. *)
Definition getForecast_path (city : jsstring) : option jsstring :=
  match encodeURIComponent city with
  | Some segment => Some (js "/api/weather/" ++ segment ++ js "/forecast")
  | None => None
  end.




(** No code unit of the string is a surrogate. *)
Definition no_surrogates (s : jsstring) : bool :=
  forallb (fun c => negb (JSON.is_high_surrogate c)
                    && negb (JSON.is_low_surrogate c)) s.

End WeatherApi.

(** ** Counting what happened in a list of search events *)

Module SearchTrace.

Import SearchBar.

(** The events that set the query: input changes and selections. *)
Fixpoint edits (events : list event) : nat :=
  match events with
  | [] => 0
  | Change _ :: more => S (edits more)
  | Select _ :: more => S (edits more)
  | _ :: more => edits more
  end.

(** The time that goes by in the events. *)
Fixpoint elapsed (events : list event) : nat :=
  match events with
  | [] => 0
  | Elapse ms :: more => ms + elapsed more
  | _ :: more => elapsed more
  end.

(** No event is the outcome of a search call. *)
Definition no_response (events : list event) : bool :=
  forallb (fun e => match e with
                    | Resolved _ => false
                    | Rejected _ => false
                    | _ => true
                    end) events.

(** What holds of the timer in every state the component can be in. *)
Definition timer_ok (s : state) : Prop :=
  match pending s with
  | Some t =>
    captured t = query s /\ (2 <= length (query s))%nat /\
    (0 < remaining t <= DELAY)%nat
  | None => True
  end.

(** The calls made so far against the edits [e] and the time [t] so far:
    a pending timer counts as a call to come, and the time it has run is
    not yet spent. *)
Definition within_budget (s : state) (e t : nat) : Prop :=
  (length (calls s)
   + match pending s with Some _ => 1 | None => 0 end <= e)%nat /\
  (DELAY * length (calls s)
   + match pending s with
     | Some p => DELAY - remaining p
     | None => 0
     end <= t)%nat.

End SearchTrace.

(** ** More sample data *)

Definition stratford_weather : CurrentWeather :=
  {| city_name := js "Stratford-upon"; cw_country := js "Avon";
     temperature := 9; feels_like := 8; cw_description := js "mist";
     cw_icon := js "50d"; cw_humidity := 93; cw_wind_speed := 2;
     pressure := 1009; cw_temp_min := 8; cw_temp_max := 10 |}.

Definition upon_avon_weather : CurrentWeather :=
  {| city_name := js "Stratford"; cw_country := js "upon-Avon";
     temperature := 9; feels_like := 8; cw_description := js "mist";
     cw_icon := js "50d"; cw_humidity := 93; cw_wind_speed := 2;
     pressure := 1009; cw_temp_min := 8; cw_temp_max := 10 |}.

Definition paris_weather : CurrentWeather :=
  {| city_name := js "Paris"; cw_country := js "FR";
     temperature := 15; feels_like := 15; cw_description := js "clear sky";
     cw_icon := js "01d"; cw_humidity := 60; cw_wind_speed := 3;
     pressure := 1018; cw_temp_min := 12; cw_temp_max := 17 |}.


(** ** axios, as far as the API client relies on it

    After the documentation of axios 1.x: a request settles with the
    response when its status passes [validateStatus] (2xx by default) and
    is rejected with an [AxiosError] otherwise; the error of a bad status
    carries the response, the error of a network failure or of a timeout
    carries none; a request that takes longer than a non-zero [timeout]
    is aborted with the code [ECONNABORTED]. *)

Module Axios.

Record Response : Type := mkResponse {
  status : N;
  data : JSON.value
}.

Inductive Code : Type :=
| ERR_BAD_REQUEST
| ERR_BAD_RESPONSE
| ERR_NETWORK
| ECONNABORTED.

(** Every rejection of a request is an object of the one class
    [AxiosError]; its [name] is the name of that class. *)
Record AxiosError : Type := mkAxiosError {
  name : jsstring;
  code : option Code;
  response : option Response
}.

Definition AXIOS_ERROR : jsstring := js "AxiosError".

Record Config : Type := mkConfig {
  timeout : N;                              (* milliseconds; 0 is none *)
  headers : list (jsstring * jsstring)
}.

Record Request : Type := mkRequest {
  url : jsstring;
  params : list (jsstring * jsstring)
}.

(** What the network does with a request. *)
Inductive Exchange : Type :=
| Answered (after_ms : N) (r : Response)
| Broken (after_ms : N)        (* no connection, connection lost *)
| Silent.                      (* nothing ever comes back *)

Inductive Settled : Type :=
| Fulfilled (r : Response)
| Rejected (e : AxiosError)
| Pending.                     (* the promise never settles *)

Definition validateStatus (status : N) : bool :=
  (200 <=? status) && (status <? 300).

(** [[ERR_BAD_REQUEST, ERR_BAD_RESPONSE][Math.floor(status / 100) - 4]] *)
Definition bad_status_code (status : N) : option Code :=
  if status / 100 =? 4 then Some ERR_BAD_REQUEST
  else if status / 100 =? 5 then Some ERR_BAD_RESPONSE
  else None.

Definition bad_status (r : Response) : AxiosError :=
  {| name := AXIOS_ERROR; code := bad_status_code (status r);
     response := Some r |}.

Definition network_error : AxiosError :=
  {| name := AXIOS_ERROR; code := Some ERR_NETWORK; response := None |}.

Definition timeout_error : AxiosError :=
  {| name := AXIOS_ERROR; code := Some ECONNABORTED; response := None |}.

Definition timed_out (cfg : Config) (ms : N) : bool :=
  (0 <? timeout cfg) && (timeout cfg <? ms).

(** How a request made with configuration [cfg] settles. *)
Definition settle (cfg : Config) (x : Exchange) : Settled :=
  match x with
  | Answered ms r =>
    if timed_out cfg ms then Rejected timeout_error
    else if validateStatus (status r) then Fulfilled r
    else Rejected (bad_status r)
  | Broken ms =>
    if timed_out cfg ms then Rejected timeout_error
    else Rejected network_error
  | Silent =>
    if 0 <? timeout cfg then Rejected timeout_error else Pending
  end.

(** [error.response?.data?.detail] *)
Definition detail_of (e : AxiosError) : option JSON.value :=
  match response e with
  | Some r =>
    match data r with
    | JSON.JObject members =>
      match List.find (fun m => bool_decide (fst m = js "detail")) members with
      | Some m => Some (snd m)
      | None => None
      end
    | _ => None
    end
  | None => None
  end.

End Axios.

(** ** services/api.ts: the client and its three operations *)

Module ApiClient.

(** [axios.create({ baseURL, timeout: 10000, headers })] *)
Definition apiClient : Axios.Config :=
  {| Axios.timeout := 10000;
     Axios.headers := [(js "Content-Type", js "application/json")] |}.

(** How the promise an operation returns ends. *)
Inductive Outcome : Type :=
| Resolves (data : JSON.value)        (* [return response.data] *)
| RejectsWith (e : Axios.AxiosError)  (* the awaited [get] rejected *)
| RejectsWithURIError                 (* [encodeURIComponent] threw *)
| NeverSettles.

(** The rest of an operation once [apiClient.get] has settled: there is
    no [catch], so a rejection leaves the operation as it came. *)
Definition after_get (s : Axios.Settled) : Outcome :=
  match s with
  | Axios.Fulfilled r => Resolves (Axios.data r)
  | Axios.Rejected e => RejectsWith e
  | Axios.Pending => NeverSettles
  end.

Definition weather_request (path : jsstring) : Axios.Request :=
  {| Axios.url := path; Axios.params := [] |}.

Definition search_request (query : jsstring) : Axios.Request :=
  {| Axios.url := js "/api/cities/search";
     Axios.params := [(js "q", query)] |}.

Section Operations.

(** [apiClient.get], whatever it does. *)
Variable get : Axios.Request -> Axios.Settled.

Definition getCurrentWeather (city : jsstring) : Outcome :=
  match WeatherApi.getCurrentWeather_path city with
  | Some path => after_get (get (weather_request path))
  | None => RejectsWithURIError
  end.

Definition getForecast (city : jsstring) : Outcome :=
  match WeatherApi.getForecast_path city with
  | Some path => after_get (get (weather_request path))
  | None => RejectsWithURIError
  end.

Definition searchCities (query : jsstring) : Outcome :=
  after_get (get (search_request query)).

End Operations.

(** [apiClient.get] over a network: every request is made with the
    configuration of the one client. *)
Definition apiClient_get (network : Axios.Request -> Axios.Exchange)
    (request : Axios.Request) : Axios.Settled :=
  Axios.settle apiClient (network request).

(** Two errors are of the same kind when they are objects of the same
    class. *)
Definition same_kind (e1 e2 : Axios.AxiosError) : bool :=
  bool_decide (Axios.name e1 = Axios.name e2).

End ApiClient.

(** ** The search controller at rest *)

Module SearchPhase.

Import SearchBar.


End SearchPhase.

(** ** Sample networks and searches *)

Definition not_found_body : JSON.value :=
  JSON.JObject [(js "detail", JSON.JString (js "City not found"))].

(** A back end that answers every request with 404 after 50 ms. *)
Definition not_found_network (_ : Axios.Request) : Axios.Exchange :=
  Axios.Answered 50 {| Axios.status := 404; Axios.data := not_found_body |}.

(** A back end that answers after 15 seconds. *)
Definition slow_network (_ : Axios.Request) : Axios.Exchange :=
  Axios.Answered 15000 {| Axios.status := 200; Axios.data := JSON.JNull |}.

(** No connection. *)
Definition offline_network (_ : Axios.Request) : Axios.Exchange :=
  Axios.Broken 5.

Definition london_result : CitySearchResult :=
  {| csr_name := js "London"; csr_country := js "GB";
     csr_state := Some (js "England"); lat := 51.5; lon := 0 |}.

(** A result whose state is the empty string, and one that has none. *)
Definition springfield_result : CitySearchResult :=
  {| csr_name := js "Springfield"; csr_country := js "US";
     csr_state := Some []; lat := 39.75; lon := -89.5 |}.

Definition paris_result : CitySearchResult :=
  {| csr_name := js "Paris"; csr_country := js "FR";
     csr_state := None; lat := 48.75; lon := 2.25 |}.


(** * Properties *)

(** ** The favorites updaters *)

Section FavoritesFacts.

Import Favorites.

Lemma some_id_true (target : jsstring) (favs : list FavoriteCity) :
  some_id target favs = true <-> exists f, In f favs /\ id f = target.
Proof.
  unfold some_id. rewrite existsb_exists.
  split; intros (f & Hin & Hid); exists f; split; auto.
  - now apply bool_decide_eq_true in Hid.
  - now apply bool_decide_eq_true.
Qed.

Lemma some_id_false (target : jsstring) (favs : list FavoriteCity) :
  some_id target favs = false <-> forall f, In f favs -> id f <> target.
Proof.
  split.
  - intros Hnone f Hin Hid.
    assert (some_id target favs = true) as Hsome
      by (apply some_id_true; eauto).
    congruence.
  - intros Hall. destruct (some_id target favs) eqn:Hsome; [|reflexivity].
    apply some_id_true in Hsome as (f & Hin & Hid).
    now destruct (Hall f Hin).
Qed.

Lemma some_id_in_ids (target : jsstring) (favs : list FavoriteCity) :
  some_id target favs = true <-> In target (map id favs).
Proof.
  rewrite some_id_true, in_map_iff.
  split; intros (f & H1 & H2); exists f; auto.
Qed.

Lemma count_id_app (target : jsstring) (l1 l2 : list FavoriteCity) :
  count_id target (l1 ++ l2) = (count_id target l1 + count_id target l2)%nat.
Proof.
  unfold count_id. now rewrite List.filter_app, length_app.
Qed.

Lemma count_id_absent (target : jsstring) (favs : list FavoriteCity) :
  some_id target favs = false -> count_id target favs = 0%nat.
Proof.
  unfold count_id. induction favs as [|f favs IH]; simpl; [reflexivity|].
  intros H. apply orb_false_iff in H as [Hf Hrest].
  rewrite Hf. auto.
Qed.

Lemma count_id_unique (target : jsstring) (favs : list FavoriteCity) :
  NoDup (map id favs) -> some_id target favs = true ->
  count_id target favs = 1%nat.
Proof.
  unfold count_id. induction favs as [|f favs IH]; simpl; [discriminate|].
  intros Hnd Hsome. apply NoDup_cons in Hnd as [Hnotin Hnd].
  destruct (bool_decide (id f = target)) eqn:Hf; simpl in *.
  - apply bool_decide_eq_true in Hf. subst target.
    assert (some_id (id f) favs = false) as Habs.
    { destruct (some_id (id f) favs) eqn:E; [|reflexivity].
      apply some_id_in_ids, list_elem_of_In in E. contradiction. }
    apply count_id_absent in Habs. unfold count_id in Habs.
    now rewrite Habs.
  - auto.
Qed.

Lemma addFavorite_idempotent (city : FavoriteCity) (prev : list FavoriteCity) :
  addFavorite city (addFavorite city prev) = addFavorite city prev.
Proof.
  unfold addFavorite at 2 3. destruct (some_id (id city) prev) eqn:Hsome.
  - unfold addFavorite. now rewrite Hsome.
  - unfold addFavorite.
    assert (some_id (id city) (prev ++ [city]) = true) as ->; [|reflexivity].
    apply some_id_true. exists city. split; [|reflexivity].
    apply in_or_app. right. now left.
Qed.

Lemma some_id_addFavorite (city : FavoriteCity) (prev : list FavoriteCity) :
  some_id (id city) (addFavorite city prev) = true.
Proof.
  unfold addFavorite. destruct (some_id (id city) prev) eqn:Hsome; [exact Hsome|].
  apply some_id_true. exists city. split; [|reflexivity].
  apply in_or_app. right. now left.
Qed.

Lemma ids_filter_incl (p : FavoriteCity -> bool) (favs : list FavoriteCity)
    (x : jsstring) :
  In x (map id (List.filter p favs)) -> In x (map id favs).
Proof.
  rewrite !in_map_iff. intros (f & Hid & Hin).
  apply filter_In in Hin as [Hin _]. eauto.
Qed.

Lemma unique_ids_filter (p : FavoriteCity -> bool) (favs : list FavoriteCity) :
  NoDup (map id favs) -> NoDup (map id (List.filter p favs)).
Proof.
  induction favs as [|f favs IH]; simpl; [auto|].
  intros Hnd. apply NoDup_cons in Hnd as [Hnotin Hnd].
  destruct (p f); simpl; [|auto].
  apply NoDup_cons. split; [|auto].
  intros Hin. apply Hnotin. apply list_elem_of_In.
  apply list_elem_of_In in Hin. eapply ids_filter_incl; eauto.
Qed.

Lemma unique_ids_addFavorite (city : FavoriteCity) (prev : list FavoriteCity) :
  NoDup (map id prev) -> NoDup (map id (addFavorite city prev)).
Proof.
  intros Hnd. unfold addFavorite.
  destruct (some_id (id city) prev) eqn:Hsome; [exact Hnd|].
  rewrite map_app. simpl.
  apply NoDup_app. split; [exact Hnd|]. split.
  - intros x Hx Hin. apply list_elem_of_In in Hx, Hin.
    destruct Hin as [<-|[]].
    apply some_id_in_ids in Hx. congruence.
  - apply NoDup_singleton.
Qed.

Lemma unique_ids_removeFavorite (target : jsstring) (prev : list FavoriteCity) :
  NoDup (map id prev) -> NoDup (map id (removeFavorite target prev)).
Proof. apply unique_ids_filter. Qed.

Lemma unique_ids_apply (op : operation) (favs : list FavoriteCity) :
  NoDup (map id favs) -> NoDup (map id (apply_operation op favs)).
Proof.
  destruct op; simpl.
  - apply unique_ids_addFavorite.
  - apply unique_ids_removeFavorite.
Qed.

End FavoritesFacts.

(** C2. [add(city)] appends the city when no favorite has its id and hands
    back the list it was given otherwise; a second [add] of the same city
    changes nothing, and in a list whose ids are unique it leaves exactly
    one entry with that id. *)
Theorem add_inserts_only_when_id_absent
    (prev : list FavoriteCity) (city : FavoriteCity) :
  ((exists f, In f prev /\ id f = id city) ->
     Favorites.addFavorite city prev = prev) /\
  ((forall f, In f prev -> id f <> id city) ->
     Favorites.addFavorite city prev = prev ++ [city]) /\
  Favorites.addFavorite city (Favorites.addFavorite city prev)
    = Favorites.addFavorite city prev /\
  (NoDup (map id prev) ->
     Favorites.count_id (id city)
       (Favorites.addFavorite city (Favorites.addFavorite city prev)) = 1%nat).
Proof.
  repeat split.
  - intros Hex. apply some_id_true in Hex.
    unfold Favorites.addFavorite. now rewrite Hex.
  - intros Hall. apply some_id_false in Hall.
    unfold Favorites.addFavorite. now rewrite Hall.
  - apply addFavorite_idempotent.
  - intros Hnd. rewrite addFavorite_idempotent.
    apply count_id_unique.
    + now apply unique_ids_addFavorite.
    + apply some_id_addFavorite.
Qed.

Lemma add_inserts_only_when_id_absent_witness :
  Favorites.addFavorite london [] = [london] /\
  Favorites.count_id (id london)
    (Favorites.addFavorite london (Favorites.addFavorite london [])) = 1%nat.
Proof.
  destruct (add_inserts_only_when_id_absent [] london)
    as (_ & Habsent & _ & Hone).
  split.
  - apply Habsent. intros f [].
  - apply Hone. constructor.
Defined.

(** C6. The hook's operations keep the ids of the favorites distinct: [add]
    and [remove] preserve uniqueness, every state reachable from the empty
    list has unique ids, and in every state the user interface can reach
    each id is the [name-country] string of its entry. *)
Theorem unique_ids_invariant :
  (forall op favs,
     FavoritesMachine.unique_ids favs ->
     FavoritesMachine.unique_ids (Favorites.apply_operation op favs)) /\
  (forall favs,
     FavoritesMachine.reachable favs -> FavoritesMachine.unique_ids favs) /\
  (forall favs,
     FavoritesMachine.ui_reachable favs ->
     FavoritesMachine.unique_ids favs /\
     Forall FavoritesMachine.derived_id favs).
Proof.
  unfold FavoritesMachine.unique_ids. split; [|split].
  - intros op favs. apply unique_ids_apply.
  - intros favs Hreach. induction Hreach as [|op favs _ IH].
    + constructor.
    + now apply unique_ids_apply.
  - intros favs Hreach. induction Hreach as [|a favs _ [IHu IHd]].
    + split; constructor.
    + destruct a as [weather|target]; simpl.
      * split; [now apply unique_ids_apply|].
        unfold WeatherCard.handleFavoriteToggle.
        destruct (Favorites.isFavorite _ favs); simpl.
        -- unfold Favorites.removeFavorite.
           apply Forall_forall. intros f Hin. apply list_elem_of_In in Hin.
           apply filter_In in Hin as [Hin _].
           apply list_elem_of_In in Hin.
           revert f Hin. now apply Forall_forall.
        -- unfold Favorites.addFavorite.
           destruct (Favorites.some_id _ favs); [exact IHd|].
           apply Forall_app. split; [exact IHd|].
           constructor; [reflexivity|constructor].
      * split; [now apply unique_ids_removeFavorite|].
        unfold Favorites.removeFavorite.
        apply Forall_forall. intros f Hin. apply list_elem_of_In in Hin.
        apply filter_In in Hin as [Hin _].
        apply list_elem_of_In in Hin.
        revert f Hin. now apply Forall_forall.
Qed.

Lemma unique_ids_invariant_witness :
  FavoritesMachine.unique_ids
    (Favorites.apply_operation (Favorites.Add london) [paris]) /\
  FavoritesMachine.unique_ids
    (Favorites.apply_operation (Favorites.Remove (id paris)) [paris; london]).
Proof.
  destruct unique_ids_invariant as (Hstep & _ & _).
  split; apply Hstep; unfold FavoritesMachine.unique_ids; simpl.
  - apply NoDup_singleton.
  - apply NoDup_cons. split; [|apply NoDup_singleton].
    intros Hin. apply list_elem_of_In in Hin. simpl in Hin.
    destruct Hin as [Heq|[]]. vm_compute in Heq. discriminate.
Defined.

(** ** JSON: what the serializer writes, the parser reads back *)

Section JsonFacts.

Import JSON.

Lemma hex_val_hex_digit (d : N) : d < 16 -> hex_val (hex_digit d) = Some d.
Proof.
  intros Hd.
  assert (d = 0 \/ d = 1 \/ d = 2 \/ d = 3 \/ d = 4 \/ d = 5 \/ d = 6 \/ d = 7
          \/ d = 8 \/ d = 9 \/ d = 10 \/ d = 11 \/ d = 12 \/ d = 13 \/ d = 14
          \/ d = 15) as Hcases by lia.
  repeat (destruct Hcases as [->|Hcases]; [reflexivity|]).
  now subst d.
Qed.

Lemma hex4_digits (c : N) :
  c < 65536 ->
  hex4 (hex_digit ((c / 4096) mod 16)) (hex_digit ((c / 256) mod 16))
       (hex_digit ((c / 16) mod 16)) (hex_digit (c mod 16)) = Some c.
Proof.
  intros Hc. unfold hex4.
  rewrite !hex_val_hex_digit by (apply N.mod_lt; discriminate).
  f_equal. zify. Z.to_euclidean_division_equations. lia.
Qed.

(** One step of the string reader, with the punctuation spelled out. *)
Lemma parse_string_chars_raw (c : N) (rest : jsstring) :
  (c =? 34) = false -> (c =? 92) = false -> (c <? 32) = false ->
  parse_string_chars (c :: rest) = cons_char c (parse_string_chars rest).
Proof.
  intros H1 H2 H3. simpl. unfold quote_mark, backslash.
  now rewrite H1, H2, H3.
Qed.

Lemma parse_string_chars_short (e u : N) (rest : jsstring) :
  (e =? 117) = false -> unescape e = Some u ->
  parse_string_chars (backslash :: e :: rest)
  = cons_char u (parse_string_chars rest).
Proof.
  intros H1 H2. simpl. now rewrite H1, H2.
Qed.

Lemma parse_string_chars_unicode (c : N) (rest : jsstring) :
  c < 65536 ->
  parse_string_chars (unicode_escape c ++ rest)
  = cons_char c (parse_string_chars rest).
Proof.
  intros Hc. unfold unicode_escape. simpl app.
  cbn [parse_string_chars]. change (backslash =? quote_mark) with false.
  change (backslash =? backslash) with true. change (117 =? 117) with true.
  cbv iota. now rewrite hex4_digits.
Qed.

(** Reading back the body of a serialized string. *)
Lemma parse_quote_chars (s tail : jsstring) :
  parse_string_chars (quote_chars s ++ quote_mark :: tail) = Some (s, tail).
Proof.
  remember (length s) as n eqn:Hn.
  assert (length s <= n)%nat as Hlen by lia. clear Hn.
  revert s Hlen. induction n as [|n IH]; intros s Hlen.
  - destruct s; [reflexivity|simpl in Hlen; lia].
  - destruct s as [|c rest]; [reflexivity|].
    simpl in Hlen.
    assert (parse_string_chars (quote_chars rest ++ quote_mark :: tail)
            = Some (rest, tail)) as IHrest by (apply IH; lia).
    cbn [quote_chars].
    destruct (c =? 34) eqn:E34.
    { apply N.eqb_eq in E34. subst c. simpl app.
      rewrite (parse_string_chars_short 34 34) by reflexivity.
      now rewrite IHrest. }
    destruct (c =? 92) eqn:E92.
    { apply N.eqb_eq in E92. subst c. simpl app.
      rewrite (parse_string_chars_short 92 92) by reflexivity.
      now rewrite IHrest. }
    destruct (c =? 8) eqn:E8.
    { apply N.eqb_eq in E8. subst c. simpl app.
      rewrite (parse_string_chars_short 98 8) by reflexivity.
      now rewrite IHrest. }
    destruct (c =? 9) eqn:E9.
    { apply N.eqb_eq in E9. subst c. simpl app.
      rewrite (parse_string_chars_short 116 9) by reflexivity.
      now rewrite IHrest. }
    destruct (c =? 10) eqn:E10.
    { apply N.eqb_eq in E10. subst c. simpl app.
      rewrite (parse_string_chars_short 110 10) by reflexivity.
      now rewrite IHrest. }
    destruct (c =? 12) eqn:E12.
    { apply N.eqb_eq in E12. subst c. simpl app.
      rewrite (parse_string_chars_short 102 12) by reflexivity.
      now rewrite IHrest. }
    destruct (c =? 13) eqn:E13.
    { apply N.eqb_eq in E13. subst c. simpl app.
      rewrite (parse_string_chars_short 114 13) by reflexivity.
      now rewrite IHrest. }
    destruct (c <? 32) eqn:E32.
    { apply N.ltb_lt in E32. rewrite <- app_assoc.
      rewrite parse_string_chars_unicode by lia.
      now rewrite IHrest. }
    destruct (is_high_surrogate c) eqn:Ehigh.
    { unfold is_high_surrogate in Ehigh.
      apply andb_true_iff in Ehigh as [Hlo Hhi].
      apply N.leb_le in Hlo, Hhi.
      destruct rest as [|d rest'].
      - rewrite parse_string_chars_unicode by lia.
        reflexivity.
      - destruct (is_low_surrogate d) eqn:Elow.
        + unfold is_low_surrogate in Elow.
          apply andb_true_iff in Elow as [Hlo' Hhi'].
          apply N.leb_le in Hlo', Hhi'.
          simpl app.
          rewrite parse_string_chars_raw by assumption.
          rewrite parse_string_chars_raw
            by (first [apply N.eqb_neq | apply N.ltb_ge]; lia).
          rewrite IH by (simpl in Hlen; lia). reflexivity.
        + rewrite <- app_assoc, parse_string_chars_unicode by lia.
          now rewrite IHrest. }
    destruct (is_low_surrogate c) eqn:Elow.
    { unfold is_low_surrogate in Elow.
      apply andb_true_iff in Elow as [Hlo Hhi].
      apply N.leb_le in Hlo, Hhi.
      rewrite <- app_assoc, parse_string_chars_unicode by lia.
      now rewrite IHrest. }
    simpl app. rewrite parse_string_chars_raw by assumption.
    now rewrite IHrest.
Qed.

Lemma parse_value_string (n : nat) (s rest : jsstring) :
  parse_value (S n) (quote s ++ rest) = Parsed (JString s) rest.
Proof.
  unfold quote. rewrite <- app_comm_cons, <- app_assoc. cbn [app].
  cbn [parse_value skip_ws]. change (is_ws quote_mark) with false.
  cbv iota. change (quote_mark =? quote_mark) with true. cbv iota.
  now rewrite parse_quote_chars.
Qed.

(** One member whose value is a string, and what follows it. *)
Lemma parse_members_string (n : nat) (key s after : jsstring) :
  parse_members (S (S n)) (quote key ++ colon :: quote s ++ after)
  = match skip_ws after with
    | c :: r =>
      if c =? comma then
        match parse_members (S n) r with
        | Parsed ms r' => Parsed ((key, JString s) :: ms) r'
        | SyntaxError => SyntaxError
        | OutOfFuel => OutOfFuel
        end
      else if c =? rbrace then Parsed [(key, JString s)] r
      else SyntaxError
    | [] => SyntaxError
    end.
Proof.
  remember (S n) as m eqn:Hm.
  unfold quote at 1. rewrite <- app_comm_cons, <- app_assoc. cbn [app].
  cbn [parse_members skip_ws]. change (is_ws quote_mark) with false.
  cbv iota. change (quote_mark =? quote_mark) with true. cbv iota.
  rewrite parse_quote_chars. cbn [skip_ws].
  change (is_ws colon) with false. cbv iota.
  change (colon =? colon) with true. cbv iota.
  subst m. now rewrite parse_value_string.
Qed.

Lemma stringify_encode_favorite (f : FavoriteCity) :
  stringify (FavoriteJson.encode_favorite f)
  = lbrace ::
    quote (js "id") ++ colon :: quote (id f) ++ comma ::
    quote (js "name") ++ colon :: quote (name f) ++ comma ::
    quote (js "country") ++ colon :: quote (country f) ++ [rbrace].
Proof.
  unfold FavoriteJson.encode_favorite.
  cbn [stringify map join_comma fst snd].
  repeat (rewrite <- app_assoc || rewrite <- app_comm_cons).
  reflexivity.
Qed.

(** A serialized favorite parses back, whatever follows it. *)
Lemma parse_value_favorite (n : nat) (f : FavoriteCity) (rest : jsstring) :
  parse_value (5 + n) (stringify (FavoriteJson.encode_favorite f) ++ rest)
  = Parsed (FavoriteJson.encode_favorite f) rest.
Proof.
  rewrite stringify_encode_favorite.
  repeat (rewrite <- app_assoc || rewrite <- app_comm_cons).
  change (5 + n)%nat with (S (S (S (S (S n))))).
  remember (S (S (S (S n)))) as m eqn:Hm.
  cbn [parse_value skip_ws]. change (is_ws lbrace) with false. cbv iota.
  change (lbrace =? quote_mark) with false.
  change (lbrace =? lbracket) with false.
  change (lbrace =? lbrace) with true. cbv iota.
  unfold quote at 1. rewrite <- app_comm_cons. cbn [skip_ws].
  change (is_ws quote_mark) with false. cbv iota.
  change (quote_mark =? rbrace) with false. cbv iota.
  change (quote_mark :: quote_chars (js "id") ++ [quote_mark])
    with (quote (js "id")).
  subst m.
  rewrite parse_members_string. cbn [skip_ws].
  change (is_ws comma) with false. cbv iota.
  change (comma =? comma) with true. cbv iota.
  rewrite parse_members_string. cbn [skip_ws].
  change (is_ws comma) with false. cbv iota.
  change (comma =? comma) with true. cbv iota.
  rewrite parse_members_string. cbn [skip_ws app].
  change (is_ws rbrace) with false. cbv iota.
  change (rbrace =? comma) with false. cbv iota.
  change (rbrace =? rbrace) with true. cbv iota.
  reflexivity.
Qed.

Lemma parse_elements_favorites (favs : list FavoriteCity) :
  forall (f : FavoriteCity) (n : nat) (rest : jsstring),
    parse_elements (length favs + 6 + n)
      (join_comma (FavoriteJson.favorite_texts (f :: favs)) ++ rbracket :: rest)
    = Parsed (map FavoriteJson.encode_favorite (f :: favs)) rest.
Proof.
  unfold FavoriteJson.favorite_texts.
  induction favs as [|g favs IH]; intros f n rest.
  - change (length [] + 6 + n)%nat with (S (5 + n)).
    cbn [map join_comma].
    remember (5 + n)%nat as m eqn:Hm. cbn [parse_elements]. subst m.
    rewrite parse_value_favorite. cbn [skip_ws].
    change (is_ws rbracket) with false. cbv iota.
    change (rbracket =? comma) with false.
    change (rbracket =? rbracket) with true. reflexivity.
  - replace (length (g :: favs) + 6 + n)%nat
      with (S (5 + (S (length favs + n)))) by (cbn [length]; lia).
    remember (5 + (S (length favs + n)))%nat as m eqn:Hm.
    change (join_comma (map stringify
              (map FavoriteJson.encode_favorite (f :: g :: favs))))
      with (stringify (FavoriteJson.encode_favorite f) ++ comma ::
            join_comma (map stringify
              (map FavoriteJson.encode_favorite (g :: favs)))).
    rewrite <- app_assoc, <- app_comm_cons.
    cbn [parse_elements]. rewrite Hm at 1.
    rewrite parse_value_favorite. cbn [skip_ws].
    change (is_ws comma) with false. cbv iota.
    change (comma =? comma) with true. cbv iota.
    replace m with (length favs + 6 + n)%nat by lia.
    now rewrite IH.
Qed.

Lemma favorite_text_head (f : FavoriteCity) :
  exists tl, stringify (FavoriteJson.encode_favorite f)
             = lbrace :: quote_mark :: tl.
Proof. rewrite stringify_encode_favorite. unfold quote. eauto. Qed.

Lemma join_favorite_texts_head (f : FavoriteCity) (favs : list FavoriteCity) :
  exists tl, join_comma (FavoriteJson.favorite_texts (f :: favs))
             = lbrace :: quote_mark :: tl.
Proof.
  unfold FavoriteJson.favorite_texts. destruct (favorite_text_head f) as [tl Htl].
  destruct favs as [|g favs]; cbn [map join_comma]; rewrite Htl.
  - eauto.
  - rewrite <- !app_comm_cons. eauto.
Qed.

Lemma join_favorite_texts_length (favs : list FavoriteCity) :
  (2 * length favs <= length (join_comma (FavoriteJson.favorite_texts favs)))%nat.
Proof.
  induction favs as [|f favs IH]; [simpl; lia|].
  destruct favs as [|g favs].
  - destruct (join_favorite_texts_head f []) as [tl ->].
    cbn [length]. lia.
  - unfold FavoriteJson.favorite_texts in *.
    change (join_comma (map stringify
              (map FavoriteJson.encode_favorite (f :: g :: favs))))
      with (stringify (FavoriteJson.encode_favorite f) ++ comma ::
            join_comma (map stringify
              (map FavoriteJson.encode_favorite (g :: favs)))).
    destruct (favorite_text_head f) as [tl ->].
    rewrite length_app. cbn [length] in *. lia.
Qed.

Lemma stringify_favorites_eq (favs : list FavoriteCity) :
  FavoriteJson.stringify_favorites favs
  = lbracket :: join_comma (FavoriteJson.favorite_texts favs) ++ [rbracket].
Proof. reflexivity. Qed.

(** The text the hook writes parses back to the array it serialized. *)
Lemma parse_stringify_favorites (favs : list FavoriteCity) :
  parse (FavoriteJson.stringify_favorites favs)
  = Some (FavoriteJson.encode favs).
Proof.
  unfold parse, fuel_for.
  pose proof (join_favorite_texts_length favs) as Hlen.
  rewrite stringify_favorites_eq.
  remember (2 * length (lbracket :: join_comma (FavoriteJson.favorite_texts favs)
                          ++ [rbracket]))%nat as k eqn:Hk.
  cbn [length] in Hk. rewrite length_app in Hk. cbn [length] in Hk.
  destruct favs as [|f favs].
  - subst k. reflexivity.
  - destruct (join_favorite_texts_head f favs) as [tl Htl].
    cbn [parse_value skip_ws]. change (is_ws lbracket) with false.
    cbv iota. change (lbracket =? quote_mark) with false.
    change (lbracket =? lbracket) with true. cbv iota.
    rewrite Htl at 1. rewrite <- !app_comm_cons. cbn [skip_ws].
    change (is_ws lbrace) with false. cbv iota.
    change (lbrace =? rbracket) with false. cbv iota.
    cbn [length] in Hlen.
    replace k with (length favs + 6 + (k - length favs - 6))%nat by lia.
    change [rbracket] with (rbracket :: @nil N).
    rewrite parse_elements_favorites. reflexivity.
Qed.

Lemma decode_encode (favs : list FavoriteCity) :
  FavoriteJson.decode (FavoriteJson.encode favs) = Some favs.
Proof.
  unfold FavoriteJson.decode, FavoriteJson.encode.
  induction favs as [|[n c i] favs IH]; [reflexivity|].
  cbn [map FavoriteJson.decode_all]. rewrite IH. reflexivity.
Qed.

(** *** The fuel of [parse] never runs out *)

Lemma skip_ws_length (s r : jsstring) :
  skip_ws s = r -> (length r <= length s)%nat.
Proof.
  intros <-. induction s as [|c s IH]; simpl; [lia|].
  destruct (is_ws c); simpl; lia.
Qed.

Lemma cons_char_length (c : N) (o : option (jsstring * jsstring))
    (str r : jsstring) (n : nat) :
  (forall str' r', o = Some (str', r') -> (length r' < n)%nat) ->
  cons_char c o = Some (str, r) -> (length r < n)%nat.
Proof.
  intros Ho. destruct o as [[str' r']|]; simpl; [|discriminate].
  intros [= <- <-]. now apply (Ho str' r').
Qed.

Lemma parse_string_chars_length (s str r : jsstring) :
  parse_string_chars s = Some (str, r) -> (length r < length s)%nat.
Proof.
  enough (forall n s str r, (length s <= n)%nat ->
            parse_string_chars s = Some (str, r) ->
            (length r < length s)%nat) as Hall by (now apply (Hall (length s))).
  clear s str r.
  induction n as [|n IH]; intros s str r Hle.
  - destruct s; [discriminate|simpl in Hle; lia].
  - destruct s as [|c rest]; [discriminate|]. simpl in Hle.
    cbn [parse_string_chars].
    destruct (c =? quote_mark).
    { intros [= <- <-]. simpl. lia. }
    destruct (c =? backslash).
    { destruct rest as [|e rest']; [discriminate|]. simpl in Hle.
      destruct (e =? 117).
      - destruct rest' as [|h1 [|h2 [|h3 [|h4 rest'']]]]; try discriminate.
        simpl in Hle. destruct (hex4 h1 h2 h3 h4); [|discriminate].
        intros H. cbn [length].
        enough (length r < S (length rest''))%nat by lia.
        revert H. apply cons_char_length. intros str' r' H'.
        apply IH in H'; lia.
      - destruct (unescape e); [|discriminate].
        intros H. cbn [length].
        enough (length r < S (length rest'))%nat by lia.
        revert H. apply cons_char_length. intros str' r' H'.
        apply IH in H'; lia. }
    destruct (c <? 32); [discriminate|].
    intros H. cbn [length].
    enough (length r < S (length rest))%nat by lia.
    revert H. apply cons_char_length. intros str' r' H'.
    apply IH in H'; lia.
Qed.

Lemma take_digits_length (s ds r : jsstring) :
  take_digits s = (ds, r) -> (length r <= length s)%nat.
Proof.
  revert ds r. induction s as [|c s IH]; intros ds r; simpl.
  - intros [= <- <-]. simpl. lia.
  - destruct (is_digit c).
    + destruct (take_digits s) as [ds' r'] eqn:E.
      intros [= <- <-]. specialize (IH _ _ eq_refl). lia.
    + intros [= <- <-]. simpl. lia.
Qed.

Lemma digits1_length (s ds r : jsstring) :
  digits1 s = Some (ds, r) -> (length r <= length s)%nat.
Proof.
  unfold digits1. destruct (take_digits s) as [[|d ds'] r'] eqn:E;
    [discriminate|].
  intros [= <- <-]. now apply take_digits_length in E.
Qed.

Lemma int_part_length (s ds r : jsstring) :
  int_part s = Some (ds, r) -> (length r < length s)%nat.
Proof.
  destruct s as [|c s]; simpl; [discriminate|].
  destruct (c =? 48).
  - intros [= <- <-]. lia.
  - destruct (is_digit c); [|discriminate].
    destruct (take_digits s) as [ds' r'] eqn:E.
    intros [= <- <-]. apply take_digits_length in E. lia.
Qed.

Lemma frac_part_length (s ds r : jsstring) :
  frac_part s = Some (ds, r) -> (length r <= length s)%nat.
Proof.
  destruct s as [|c s]; simpl.
  - intros [= <- <-]. simpl. lia.
  - destruct (c =? 46).
    + destruct (digits1 s) as [[ds' r']|] eqn:E; [|discriminate].
      intros [= <- <-]. apply digits1_length in E. lia.
    + intros [= <- <-]. simpl. lia.
Qed.

Lemma exp_part_length (s ds r : jsstring) :
  exp_part s = Some (ds, r) -> (length r <= length s)%nat.
Proof.
  destruct s as [|c s]; simpl.
  - intros [= <- <-]. simpl. lia.
  - destruct ((c =? 101) || (c =? 69)).
    + destruct s as [|sg s']; [discriminate|].
      destruct ((sg =? 43) || (sg =? 45)).
      * destruct (digits1 s') as [[ds' r']|] eqn:E; [|discriminate].
        intros [= <- <-]. apply digits1_length in E. simpl. lia.
      * destruct (digits1 (sg :: s')) as [[ds' r']|] eqn:E; [|discriminate].
        intros [= <- <-]. apply digits1_length in E. simpl in *. lia.
    + intros [= <- <-]. simpl. lia.
Qed.

Lemma unsigned_number_length (s l r : jsstring) :
  unsigned_number s = Some (l, r) -> (length r < length s)%nat.
Proof.
  unfold unsigned_number.
  destruct (int_part s) as [[i r1]|] eqn:E1; [|discriminate].
  destruct (frac_part r1) as [[f r2]|] eqn:E2; [|discriminate].
  destruct (exp_part r2) as [[e r3]|] eqn:E3; [|discriminate].
  intros [= <- <-].
  apply int_part_length in E1. apply frac_part_length in E2.
  apply exp_part_length in E3. lia.
Qed.

Lemma parse_number_length (s l r : jsstring) :
  parse_number s = Some (l, r) -> (length r < length s)%nat.
Proof.
  destruct s as [|c s]; simpl; [discriminate|].
  destruct (c =? 45).
  - destruct (unsigned_number s) as [[l' r']|] eqn:E; [|discriminate].
    intros [= <- <-]. apply unsigned_number_length in E. lia.
  - intros H. apply unsigned_number_length in H. simpl in H. lia.
Qed.

Lemma strip_prefix_length (p s r : jsstring) :
  strip_prefix p s = Some r -> (length r <= length s)%nat.
Proof.
  revert s. induction p as [|a p IH]; intros s; simpl.
  - intros [= <-]. lia.
  - destruct s as [|b s]; [discriminate|].
    destruct (a =? b); [|discriminate].
    intros H. apply IH in H. simpl. lia.
Qed.

Ltac break_match :=
  match goal with
  | |- context [match ?x with _ => _ end] =>
    lazymatch x with
    | context [match _ with _ => _ end] => fail
    | _ => destruct x eqn:?
    end
  end.

Ltac length_facts :=
  repeat match goal with
  | H : skip_ws _ = _ |- _ => apply skip_ws_length in H
  | H : parse_string_chars _ = Some _ |- _ =>
      apply parse_string_chars_length in H
  | H : parse_number _ = Some _ |- _ => apply parse_number_length in H
  | H : strip_prefix _ _ = Some _ |- _ => apply strip_prefix_length in H
  end.

Lemma parse_fuel (fuel : nat) :
  (forall s, (2 * length s < fuel)%nat -> consumed s (parse_value fuel s)) /\
  (forall s, (2 * length s + 1 < fuel)%nat ->
             consumed s (parse_elements fuel s)) /\
  (forall s, (2 * length s + 1 < fuel)%nat ->
             consumed s (parse_members fuel s)).
Proof.
  induction fuel as [|fuel (IHv & IHe & IHm)].
  - repeat split; intros s Hs; lia.
  - repeat split; intros s Hs.
    + cbn [parse_value]. unfold consumed.
      repeat break_match; subst; try exact I;
        repeat match goal with
        | H : parse_elements fuel ?a = _ |- _ =>
            let P := fresh "P" in
            pose proof (IHe a) as P; rewrite H in P; clear H
        | H : parse_members fuel ?a = _ |- _ =>
            let P := fresh "P" in
            pose proof (IHm a) as P; rewrite H in P; clear H
        end;
        length_facts; cbn [length consumed] in *;
        repeat match goal with
        | P : (_ < _)%nat -> _ |- _ => specialize (P ltac:(lia))
        end;
        try contradiction; try lia; try discriminate.
    + cbn [parse_elements]. unfold consumed.
      repeat break_match; subst; try exact I;
        repeat match goal with
        | H : parse_value fuel ?a = _ |- _ =>
            let P := fresh "P" in
            pose proof (IHv a) as P; rewrite H in P; clear H
        | H : parse_elements fuel ?a = _ |- _ =>
            let P := fresh "P" in
            pose proof (IHe a) as P; rewrite H in P; clear H
        end;
        length_facts; cbn [length consumed] in *;
        repeat match goal with
        | P : (_ < _)%nat -> _ |- _ => specialize (P ltac:(lia))
        end;
        try contradiction; try lia; try discriminate.
    + cbn [parse_members]. unfold consumed.
      repeat break_match; subst; try exact I;
        repeat match goal with
        | H : parse_value fuel ?a = _ |- _ =>
            let P := fresh "P" in
            pose proof (IHv a) as P; rewrite H in P; clear H
        | H : parse_members fuel ?a = _ |- _ =>
            let P := fresh "P" in
            pose proof (IHm a) as P; rewrite H in P; clear H
        end;
        length_facts; cbn [length consumed] in *;
        repeat match goal with
        | P : (_ < _)%nat -> _ |- _ => specialize (P ltac:(lia))
        end;
        try contradiction; try lia; try discriminate.
Qed.

(** [parse] answers [None] only for a text that is not JSON: with the fuel
    it passes, the recursive descent ends in a value or a syntax error. *)
Lemma parse_value_fuel (text : jsstring) :
  parse_value (fuel_for text) text <> OutOfFuel.
Proof.
  intros H. destruct (parse_fuel (fuel_for text)) as (Hv & _ & _).
  specialize (Hv text ltac:(unfold fuel_for; lia)).
  now rewrite H in Hv.
Qed.

End JsonFacts.

(** ** Hydration and persistence of one hook instance *)

Section StoreFacts.

Import UseFavorites.

Lemma initializer_of_own_text (favs : list FavoriteCity) :
  initializer (Some (FavoriteJson.stringify_favorites favs)) = Hydrated favs.
Proof.
  pose proof (parse_stringify_favorites favs) as Hparse.
  unfold initializer.
  destruct (FavoriteJson.stringify_favorites favs) as [|c text] eqn:Htext.
  - discriminate.
  - now rewrite Hparse, decode_encode.
Qed.

Lemma getItem_setItem (key text : jsstring) (w : world) :
  getItem key (setItem key text w) = Some text.
Proof. unfold getItem, setItem. simpl. apply lookup_insert_eq. Qed.


Lemma dispatch_list (op : Favorites.operation) (favs : list FavoriteCity)
    (w : world) :
  fst (dispatch op (favs, w)) = Favorites.apply_operation op favs.
Proof.
  unfold dispatch. destruct (returns_prev op favs) eqn:Hsame; [|reflexivity].
  destruct op as [city|target]; [|discriminate]. simpl in *.
  unfold Favorites.addFavorite. now rewrite Hsame.
Qed.

Lemma dispatch_keeps_record (op : Favorites.operation)
    (favs : list FavoriteCity) (w : world) :
  getItem STORAGE_KEY w = Some (FavoriteJson.stringify_favorites favs) ->
  getItem STORAGE_KEY (snd (dispatch op (favs, w)))
  = Some (FavoriteJson.stringify_favorites (fst (dispatch op (favs, w)))).
Proof.
  intros Hinv. unfold dispatch.
  destruct (returns_prev op favs); simpl; [exact Hinv|].
  apply getItem_setItem.
Qed.

Lemma run_keeps_record (ops : list Favorites.operation) :
  forall (favs : list FavoriteCity) (w : world),
    getItem STORAGE_KEY w = Some (FavoriteJson.stringify_favorites favs) ->
    fst (run ops (favs, w)) = fold_left (fun l op => Favorites.apply_operation op l) ops favs /\
    getItem STORAGE_KEY (snd (run ops (favs, w)))
    = Some (FavoriteJson.stringify_favorites (fst (run ops (favs, w)))).
Proof.
  induction ops as [|op ops IH]; intros favs w Hinv; [now split|].
  unfold run in *. cbn [fold_left].
  destruct (dispatch op (favs, w)) as [favs1 w1] eqn:Hstep.
  pose proof (dispatch_list op favs w) as Hlist.
  pose proof (dispatch_keeps_record op favs w Hinv) as Hrec.
  rewrite Hstep in Hlist, Hrec. simpl in Hlist, Hrec. subst favs1.
  now apply IH.
Qed.

End StoreFacts.

(** Hydration, case by case: the empty list when the record is missing or
    is the empty string; the very list when the record is one that the hook
    itself serialized; an exception when [JSON.parse] rejects the record. *)
Theorem hydration_outcomes (w : UseFavorites.world) :
  (UseFavorites.getItem UseFavorites.STORAGE_KEY w = None ->
     UseFavorites.hydrate w = UseFavorites.Hydrated []) /\
  (UseFavorites.getItem UseFavorites.STORAGE_KEY w = Some [] ->
     UseFavorites.hydrate w = UseFavorites.Hydrated []) /\
  (forall favs,
     UseFavorites.getItem UseFavorites.STORAGE_KEY w
       = Some (FavoriteJson.stringify_favorites favs) ->
     UseFavorites.hydrate w = UseFavorites.Hydrated favs) /\
  (forall text,
     UseFavorites.getItem UseFavorites.STORAGE_KEY w = Some text ->
     text <> [] -> JSON.parse text = None ->
     UseFavorites.hydrate w = UseFavorites.Thrown).
Proof.
  unfold UseFavorites.hydrate. repeat split.
  - now intros ->.
  - now intros ->.
  - intros favs ->. apply initializer_of_own_text.
  - intros text -> Hne Hparse. destruct text as [|c text]; [congruence|].
    unfold UseFavorites.initializer. now rewrite Hparse.
Qed.

Lemma hydration_outcomes_witness :
  UseFavorites.hydrate fresh_world = UseFavorites.Hydrated [] /\
  UseFavorites.hydrate paris_world = UseFavorites.Hydrated [paris] /\
  UseFavorites.hydrate corrupt_world = UseFavorites.Thrown.
Proof.
  destruct (hydration_outcomes fresh_world) as (Hmissing & _ & _ & _).
  destruct (hydration_outcomes paris_world) as (_ & _ & Hown & _).
  destruct (hydration_outcomes corrupt_world) as (_ & _ & _ & Hcorrupt).
  split; [|split].
  - apply Hmissing. reflexivity.
  - apply Hown. reflexivity.
  - apply (Hcorrupt (js "[{oops")).
    + reflexivity.
    + discriminate.
    + reflexivity.
Defined.

(** C1 on the code. With a record under the storage key that is not JSON,
    hydration does not yield the empty list as it does for a missing
    record: [JSON.parse] rejects the text, the exception leaves the
    initializer, and the component does not mount. *)
Lemma corrupt_record_throws :
  JSON.parse (js "[{oops") = None /\
  UseFavorites.hydrate corrupt_world = UseFavorites.Thrown /\
  UseFavorites.hydrate corrupt_world <> UseFavorites.Hydrated [] /\
  UseFavorites.mount corrupt_world = None.
Proof. repeat split; try reflexivity. discriminate. Qed.



(** Along any run of one mounted instance, the record under the storage
    key is the serialization of the instance's current list. *)
Lemma mounted_instance_record (w : UseFavorites.world)
    (ops : list Favorites.operation) (favs0 : list FavoriteCity)
    (w0 : UseFavorites.world) :
  UseFavorites.mount w = Some (favs0, w0) ->
  UseFavorites.getItem UseFavorites.STORAGE_KEY
    (snd (UseFavorites.run ops (favs0, w0)))
  = Some (FavoriteJson.stringify_favorites
            (fst (UseFavorites.run ops (favs0, w0)))).
Proof.
  unfold UseFavorites.mount.
  destruct (UseFavorites.hydrate w) as [favs| |]; try discriminate.
  intros [= <- <-]. apply run_keeps_record. apply getItem_setItem.
Qed.

(** ** Two components, two instances *)

(** C4 on the code. Both components are mounted over empty storage and
    the heart of the weather card is pressed for London: the card's own
    instance has London and the record under the storage key has it, but
    the list of the favorites panel is still empty, where a single shared
    store would list London. With Paris saved earlier, pressing the heart
    for London and then removing Paris in the panel leaves an empty record:
    London is gone from storage although nobody removed it. *)
Theorem panel_misses_card_add :
  (exists m0, Components.mount_both fresh_world = Some m0 /\
     let m1 := Components.press_heart london_weather m0 in
     Components.heart_filled london_weather m1 = true /\
     UseFavorites.getItem UseFavorites.STORAGE_KEY (Components.outside m1)
       = Some (FavoriteJson.stringify_favorites [london]) /\
     Components.panel_entries m1 = [] /\
     SharedStore.list_ (SharedStore.press_heart london_weather [])
       = [london]) /\
  (exists m0, Components.mount_both paris_world = Some m0 /\
     let m2 := Components.press_remove (id paris)
                 (Components.press_heart london_weather m0) in
     Components.card m2 = [paris; london] /\
     Components.panel_entries m2 = [] /\
     UseFavorites.hydrate (Components.outside m2) = UseFavorites.Hydrated [] /\
     SharedStore.list_
       (SharedStore.remove (id paris)
          (SharedStore.press_heart london_weather [paris]))
       = [london]).
Proof.
  split.
  - eexists. split; [reflexivity|]. cbv zeta. repeat split; reflexivity.
  - eexists. split; [reflexivity|]. cbv zeta. repeat split; reflexivity.
Qed.

(** ** The search controller *)

Section SearchFacts.

Import SearchBar.

Lemma timer_tracks_initial : timer_tracks initial 0.
Proof. unfold timer_tracks. simpl. left. lia. Qed.

Lemma query_effect_tracks (value : jsstring) (s : state) :
  timer_tracks (query_effect value s) 0.
Proof.
  unfold timer_tracks, query_effect.
  destruct (length value <? 2)%nat eqn:Hshort; simpl.
  - left. now apply Nat.ltb_lt.
  - apply Nat.ltb_ge in Hshort. unfold DELAY. repeat split; lia.
Qed.

Lemma query_effect_fields (value : jsstring) (s : state) :
  query (query_effect value s) = value /\
  calls (query_effect value s) = calls s.
Proof. unfold query_effect. destruct (length value <? 2)%nat; now split. Qed.

Lemma calls_run_tracks (events : list event) :
  forall (s : state) (quiet : nat),
    timer_tracks s quiet ->
    calls (run events s) = calls s ++ expected_calls (query s) quiet events.
Proof.
  unfold run.
  induction events as [|e events IH]; intros s quiet Htrack.
  - simpl. now rewrite app_nil_r.
  - cbn [fold_left]. destruct e as [value|ms|response|error| |city].
    + (* Change *)
      cbn [step expected_calls query_after]. unfold setQuery.
      destruct (decide (value = query s)) as [Hsame|Hnew].
      * rewrite !(bool_decide_eq_true_2 _ Hsame). now apply IH.
      * rewrite !(bool_decide_eq_false_2 _ Hnew). destruct (query_effect_fields value s) as [Hq Hc].
        rewrite (IH _ 0%nat (query_effect_tracks value s)).
        now rewrite Hq, Hc.
    + (* Elapse *)
      cbn [step expected_calls]. unfold elapse, timer_tracks in *.
      destruct (pending s) as [t|] eqn:Hpending.
      * destruct Htrack as (Hcap & Hlen & Hsum & Hpos).
        destruct (remaining t <=? ms)%nat eqn:Hfire.
        -- apply Nat.leb_le in Hfire.
           rewrite (IH _ (quiet + ms)%nat).
           ++ unfold fire. cbn [calls query].
              assert ((2 <=? length (query s))%nat = true) as ->
                by (apply Nat.leb_le; lia).
              assert ((quiet <? DELAY)%nat = true) as ->
                by (apply Nat.ltb_lt; lia).
              assert ((DELAY <=? quiet + ms)%nat = true) as ->
                by (apply Nat.leb_le; lia).
              cbn [andb]. rewrite Hcap. now rewrite <- app_assoc.
           ++ unfold fire. cbn [pending]. right. lia.
        -- apply Nat.leb_gt in Hfire.
           rewrite (IH _ (quiet + ms)%nat).
           ++ cbn [calls query].
              assert ((DELAY <=? quiet + ms)%nat = false) as ->
                by (apply Nat.leb_gt; lia).
              now rewrite andb_false_r.
           ++ cbn [pending query remaining captured].
              repeat split; try assumption; lia.
      * rewrite (IH _ (quiet + ms)%nat).
        -- destruct Htrack as [Hshort|Hlate].
           ++ assert ((2 <=? length (query s))%nat = false) as ->
                by (apply Nat.leb_gt; lia).
              reflexivity.
           ++ assert ((quiet <? DELAY)%nat = false) as ->
                by (apply Nat.ltb_ge; lia).
              now rewrite andb_false_r.
        -- rewrite Hpending. destruct Htrack; [left|right]; lia.
    + (* Resolved *)
      cbn [step expected_calls query_after].
      rewrite bool_decide_eq_true_2 by reflexivity.
      now rewrite (IH _ quiet).
    + (* Rejected *)
      cbn [step expected_calls query_after].
      rewrite bool_decide_eq_true_2 by reflexivity.
      now rewrite (IH _ quiet).
    + (* MouseDownOutside *)
      cbn [step expected_calls query_after].
      rewrite bool_decide_eq_true_2 by reflexivity.
      now rewrite (IH _ quiet).
    + (* Select *)
      cbn [step expected_calls query_after]. unfold handleSelect, setQuery.
      destruct (decide ([] = query s)) as [Hsame|Hnew].
      * rewrite !(bool_decide_eq_true_2 _ Hsame).
        rewrite (IH _ quiet); [reflexivity|exact Htrack].
      * rewrite !(bool_decide_eq_false_2 _ Hnew). destruct (query_effect_fields [] s) as [Hq Hc].
        rewrite (IH _ 0%nat).
        -- cbn [calls query]. now rewrite Hq, Hc.
        -- unfold timer_tracks. cbn [pending query].
           exact (query_effect_tracks [] s).
Qed.

End SearchFacts.

(** C3. Whatever the events, the search calls issued are exactly the
    queries of at least two characters that stayed unedited for the whole
    delay, in order and once each; a changed query replaces the pending
    timer by one for the new text, or by none when the text is shorter than
    two characters, in which case the results are cleared, the dropdown is
    closed and no call follows however long one waits. Typing "London" and
    then "London," within the delay sends "London," only, and "a" sends
    nothing. *)
Theorem debounced_search_calls :
  (forall events,
     SearchBar.calls (SearchBar.run events SearchBar.initial)
     = SearchBar.expected_calls [] 0 events) /\
  (forall s value,
     value <> SearchBar.query s ->
     SearchBar.pending (SearchBar.step (SearchBar.Change value) s)
     = if (length value <? 2)%nat then None
       else Some {| SearchBar.remaining := SearchBar.DELAY;
                    SearchBar.captured := value |}) /\
  (forall s value ms,
     value <> SearchBar.query s -> (length value < 2)%nat ->
     let s' := SearchBar.step (SearchBar.Change value) s in
     SearchBar.found s' = [] /\ SearchBar.isOpen s' = false /\
     SearchBar.dropdown (SearchBar.render s') = None /\
     SearchBar.calls s' = SearchBar.calls s /\
     SearchBar.calls (SearchBar.step (SearchBar.Elapse ms) s')
       = SearchBar.calls s) /\
  SearchBar.calls (SearchBar.run typing_london_comma SearchBar.initial)
    = [js "London,"] /\
  SearchBar.calls (SearchBar.run typing_a SearchBar.initial) = [].
Proof.
  split; [|split; [|split; [|split]]].
  - intros events.
    now rewrite (calls_run_tracks events _ _ timer_tracks_initial).
  - intros s value Hnew. cbn [SearchBar.step]. unfold SearchBar.setQuery.
    rewrite (bool_decide_eq_false_2 _ Hnew). unfold SearchBar.query_effect.
    now destruct (length value <? 2)%nat.
  - intros s value ms Hnew Hshort. cbn [SearchBar.step].
    unfold SearchBar.setQuery. rewrite (bool_decide_eq_false_2 _ Hnew).
    unfold SearchBar.query_effect.
    assert ((length value <? 2)%nat = true) as -> by (apply Nat.ltb_lt; lia).
    repeat split.
  - reflexivity.
  - reflexivity.
Qed.

Lemma debounced_search_calls_witness :
  SearchBar.pending
    (SearchBar.step (SearchBar.Change (js "Lo")) SearchBar.initial)
  = Some {| SearchBar.remaining := SearchBar.DELAY;
            SearchBar.captured := js "Lo" |} /\
  SearchBar.calls
    (SearchBar.step (SearchBar.Elapse 3000)
       (SearchBar.step (SearchBar.Change (js "a")) SearchBar.initial))
  = [].
Proof.
  destruct debounced_search_calls as (_ & Hrestart & Hshort & _).
  split.
  - apply (Hrestart SearchBar.initial (js "Lo")). discriminate.
  - apply (Hshort SearchBar.initial (js "a") 3000%nat).
    + discriminate.
    + simpl. lia.
Defined.



(** ** The API client *)

Section ClientFacts.

Import ApiClient.

Lemma settle_rejection_name (x : Axios.Exchange) (e : Axios.AxiosError) :
  Axios.settle apiClient x = Axios.Rejected e ->
  Axios.name e = Axios.AXIOS_ERROR.
Proof.
  unfold Axios.settle.
  destruct x as [ms r|ms|].
  - destruct (Axios.timed_out apiClient ms); [now intros [= <-]|].
    destruct (Axios.validateStatus (Axios.status r)); [discriminate|].
    now intros [= <-].
  - destruct (Axios.timed_out apiClient ms); now intros [= <-].
  - cbn. now intros [= <-].
Qed.

Lemma timed_out_apiClient (ms : N) :
  Axios.timed_out apiClient ms = (10000 <? ms).
Proof. reflexivity. Qed.

End ClientFacts.

(** C8, as amended. Each of the three operations makes one [get] on the
    one client, whose timeout is 10000 ms, and has no [catch]: when the
    [get] is rejected the operation fails with that very error. The error
    of a response outside 2xx that came in time carries the response, with
    its status and its body; a call that takes longer than the timeout
    fails with the code [ECONNABORTED] and a network failure with
    [ERR_NETWORK], both without a response; and all of them are objects of
    the one class [AxiosError]. *)
Theorem api_failures_pass_through :
  (forall get city query e,
     (forall path, WeatherApi.getCurrentWeather_path city = Some path ->
        get (ApiClient.weather_request path) = Axios.Rejected e ->
        ApiClient.getCurrentWeather get city = ApiClient.RejectsWith e) /\
     (forall path, WeatherApi.getForecast_path city = Some path ->
        get (ApiClient.weather_request path) = Axios.Rejected e ->
        ApiClient.getForecast get city = ApiClient.RejectsWith e) /\
     (get (ApiClient.search_request query) = Axios.Rejected e ->
        ApiClient.searchCities get query = ApiClient.RejectsWith e)) /\
  Axios.timeout ApiClient.apiClient = 10000 /\
  (forall network request,
     (forall ms r, network request = Axios.Answered ms r ->
        ms <= 10000 -> Axios.validateStatus (Axios.status r) = false ->
        exists e, ApiClient.apiClient_get network request = Axios.Rejected e /\
                  Axios.response e = Some r) /\
     (forall ms r, network request = Axios.Answered ms r -> 10000 < ms ->
        ApiClient.apiClient_get network request
        = Axios.Rejected Axios.timeout_error) /\
     (network request = Axios.Silent ->
        ApiClient.apiClient_get network request
        = Axios.Rejected Axios.timeout_error) /\
     (forall ms, network request = Axios.Broken ms -> ms <= 10000 ->
        ApiClient.apiClient_get network request
        = Axios.Rejected Axios.network_error) /\
     (forall e, ApiClient.apiClient_get network request = Axios.Rejected e ->
        Axios.name e = Axios.AXIOS_ERROR)) /\
  Axios.response Axios.timeout_error = None /\
  Axios.response Axios.network_error = None.
Proof.
  split; [|split; [reflexivity|split; [|split; reflexivity]]].
  - intros get city query e. split; [|split].
    + intros path Hpath Hget. unfold ApiClient.getCurrentWeather.
      now rewrite Hpath, Hget.
    + intros path Hpath Hget. unfold ApiClient.getForecast.
      now rewrite Hpath, Hget.
    + intros Hget. unfold ApiClient.searchCities. now rewrite Hget.
  - intros network request. unfold ApiClient.apiClient_get.
    split; [|split; [|split; [|split]]].
    + intros ms r -> Hms Hbad. unfold Axios.settle.
      rewrite timed_out_apiClient.
      assert ((10000 <? ms) = false) as -> by (apply N.ltb_ge; lia).
      rewrite Hbad. eexists. split; reflexivity.
    + intros ms r -> Hms. unfold Axios.settle.
      rewrite timed_out_apiClient.
      now assert ((10000 <? ms) = true) as -> by (apply N.ltb_lt; lia).
    + now intros ->.
    + intros ms -> Hms. unfold Axios.settle.
      rewrite timed_out_apiClient.
      now assert ((10000 <? ms) = false) as -> by (apply N.ltb_ge; lia).
    + intros e. apply settle_rejection_name.
Qed.

Lemma api_failures_pass_through_witness :
  ApiClient.getCurrentWeather (ApiClient.apiClient_get not_found_network)
    (js "Zzzznotacity")
  = ApiClient.RejectsWith
      (Axios.bad_status
         {| Axios.status := 404; Axios.data := not_found_body |}) /\
  ApiClient.apiClient_get slow_network (ApiClient.search_request (js "Lo"))
  = Axios.Rejected Axios.timeout_error.
Proof.
  destruct api_failures_pass_through as (Hpass & _ & Hnet & _).
  split.
  - refine (proj1 (Hpass (ApiClient.apiClient_get not_found_network)
              (js "Zzzznotacity") [] _) (js "/api/weather/Zzzznotacity") _ _);
      reflexivity.
  - refine (proj1 (proj2 (Hnet slow_network
              (ApiClient.search_request (js "Lo")))) 15000
              {| Axios.status := 200; Axios.data := JSON.JNull |} _ _).
    + reflexivity.
    + reflexivity.
Defined.

(** C8, as stated, fails. Without a connection [getCurrentWeather] fails
    with an error that has no response, hence no upstream status; and the
    error of a call that exceeded the timeout is of the same kind as the
    error of a 404, not of a kind of its own. *)
Lemma timeout_is_no_kind_of_its_own :
  (exists e,
     ApiClient.getCurrentWeather (ApiClient.apiClient_get offline_network)
       (js "London") = ApiClient.RejectsWith e /\
     Axios.response e = None) /\
  (exists slow missing,
     ApiClient.getCurrentWeather (ApiClient.apiClient_get slow_network)
       (js "London") = ApiClient.RejectsWith slow /\
     ApiClient.getCurrentWeather (ApiClient.apiClient_get not_found_network)
       (js "London") = ApiClient.RejectsWith missing /\
     Axios.code slow = Some Axios.ECONNABORTED /\
     Axios.response slow = None /\
     Axios.detail_of missing = Some (JSON.JString (js "City not found")) /\
     ApiClient.same_kind slow missing = true).
Proof.
  split.
  - eexists. split; reflexivity.
  - eexists. eexists. repeat split; reflexivity.
Qed.

(** ** Temperature units *)

(** *** Rounding to binary64

    The arithmetic of JavaScript numbers is the one of Rocq's primitive
    floats, whose operations are specified by [SpecFloat]: the exact result
    is rounded to nearest, ties to even, by [binary_round_aux]. The lemmas
    below bound the error of that rounding, first on mantissas and
    exponents, then on the real values. *)

Section BinaryRounding.

Local Open Scope Z_scope.

(** The number of binary digits of a mantissa. *)
Lemma digits2_pos_size (p : positive) : digits2_pos p = Pos.size p.
Proof. induction p; simpl; congruence. Qed.

Lemma Zdigits2_bounds (m : Z) :
  0 < m -> 2 ^ (Zdigits2 m - 1) <= m < 2 ^ Zdigits2 m.
Proof.
  destruct m as [|p|p]; try lia. intros _. simpl Zdigits2.
  rewrite digits2_pos_size.
  pose proof (Pos.size_gt p) as Hgt. pose proof (Pos.size_le p) as Hle.
  assert (Z.pos (2 ^ Pos.size p) = 2 ^ Z.pos (Pos.size p)) as Hpow
    by (now rewrite Pos2Z.inj_pow).
  split.
  - assert (2 ^ Z.pos (Pos.size p) = 2 * 2 ^ (Z.pos (Pos.size p) - 1)) as Hs.
    { rewrite <- Z.pow_succ_r by lia. f_equal. lia. }
    lia.
  - lia.
Qed.

Lemma Zdigits2_nonneg (m : Z) : 0 <= Zdigits2 m.
Proof. destruct m; simpl; lia. Qed.

Lemma Zdigits2_pos (m : Z) : 0 < m -> 0 < Zdigits2 m.
Proof. destruct m; simpl; lia. Qed.

Lemma Zdigits2_unique (m d : Z) :
  2 ^ (d - 1) <= m < 2 ^ d -> 0 < m -> Zdigits2 m = d.
Proof.
  intros [Hlo Hhi] Hm. pose proof (Zdigits2_bounds m Hm) as [Hlo' Hhi'].
  pose proof (Zdigits2_pos m Hm) as Hd.
  assert (0 < d) as Hdpos.
  { destruct (Z_lt_le_dec 0 d) as [|Hneg]; [assumption|].
    destruct (Z.eq_dec d 0) as [->|Hnz]; [simpl in Hhi; lia|].
    rewrite (Z.pow_neg_r 2 d) in Hhi by lia. lia. }
  destruct (Z.lt_trichotomy (Zdigits2 m) d) as [Hlt|[Heq|Hgt]]; [|exact Heq|].
  - assert (2 ^ Zdigits2 m <= 2 ^ (d - 1)) by (apply Z.pow_le_mono_r; lia). lia.
  - assert (2 ^ d <= 2 ^ (Zdigits2 m - 1)) by (apply Z.pow_le_mono_r; lia). lia.
Qed.

Lemma Zdigits2_ge (m k : Z) : 0 <= k -> 2 ^ k <= m -> k + 1 <= Zdigits2 m.
Proof.
  intros Hk Hm. assert (0 < m) as Hpos by (pose proof (Z.pow_pos_nonneg 2 k); lia).
  pose proof (Zdigits2_bounds m Hpos) as [_ Hhi].
  destruct (Z_lt_le_dec (Zdigits2 m) (k + 1)) as [Hlt|]; [|assumption].
  assert (2 ^ Zdigits2 m <= 2 ^ k)
    by (apply Z.pow_le_mono_r; [lia|lia]).
  lia.
Qed.

Lemma Zdigits2_le (m k : Z) : 0 <= k -> 0 <= m < 2 ^ k -> Zdigits2 m <= k.
Proof.
  intros Hk [Hm0 Hm]. destruct (Z.eq_dec m 0) as [->|Hnz]; [simpl; lia|].
  pose proof (Zdigits2_bounds m ltac:(lia)) as [Hlo _].
  destruct (Z_lt_le_dec k (Zdigits2 m)) as [Hlt|]; [|assumption].
  assert (2 ^ k <= 2 ^ (Zdigits2 m - 1))
    by (apply Z.pow_le_mono_r; lia).
  lia.
Qed.

(** Shifting a mantissa right by [p] places divides it by [2^p]. *)
Lemma shr_1_m (mrs : shr_record) :
  0 <= shr_m mrs -> shr_m (shr_1 mrs) = shr_m mrs / 2.
Proof.
  destruct mrs as [m r s]. simpl shr_m. intros Hm.
  destruct m as [|[p|p|]|p]; try lia; unfold shr_1; simpl shr_m.
  - reflexivity.
  - apply Z.div_unique with 1; lia.
  - apply Z.div_unique with 0; lia.
  - reflexivity.
Qed.

Lemma iter_pos_shr_m (p : positive) :
  forall mrs, 0 <= shr_m mrs ->
    shr_m (SpecFloat.iter_pos shr_1 p mrs) = shr_m mrs / 2 ^ Z.pos p.
Proof.
  induction p as [p IH|p IH|]; intros mrs Hm; cbn [SpecFloat.iter_pos].
  - assert (0 <= shr_m (shr_1 mrs)) as H1
      by (rewrite shr_1_m by assumption; apply Z.div_pos; lia).
    assert (0 <= shr_m (SpecFloat.iter_pos shr_1 p (shr_1 mrs))) as H2
      by (rewrite IH by assumption; apply Z.div_pos; [lia|apply Z.pow_pos_nonneg; lia]).
    rewrite IH, IH, shr_1_m by assumption.
    assert (2 ^ Z.pos p~1 = 2 * 2 ^ Z.pos p * 2 ^ Z.pos p) as ->.
    { replace (Z.pos p~1) with (1 + Z.pos p + Z.pos p) by lia.
      rewrite !Z.pow_add_r by lia. reflexivity. }
    pose proof (Z.pow_pos_nonneg 2 (Z.pos p)).
    rewrite !Z.div_div by lia; try (f_equal; ring).
  - assert (0 <= shr_m (SpecFloat.iter_pos shr_1 p mrs)) as H2
      by (rewrite IH by assumption; apply Z.div_pos; [lia|apply Z.pow_pos_nonneg; lia]).
    rewrite IH, IH by assumption.
    assert (2 ^ Z.pos p~0 = 2 ^ Z.pos p * 2 ^ Z.pos p) as ->.
    { replace (Z.pos p~0) with (Z.pos p + Z.pos p) by lia.
      rewrite !Z.pow_add_r by lia. reflexivity. }
    pose proof (Z.pow_pos_nonneg 2 (Z.pos p)).
    rewrite !Z.div_div by lia; try (f_equal; ring).
  - now rewrite shr_1_m.
Qed.

Lemma loc_of_record_of_loc (m : Z) (l : location) :
  loc_of_shr_record (shr_record_of_loc m l) = l.
Proof. destruct l as [|[| |]]; reflexivity. Qed.

Lemma shr_m_record_of_loc (m : Z) (l : location) :
  shr_m (shr_record_of_loc m l) = m.
Proof. destruct l as [|[| |]]; reflexivity. Qed.

Lemma round_nearest_even_range (m : Z) (l : location) :
  round_nearest_even m l = m \/ round_nearest_even m l = m + 1.
Proof.
  destruct l as [|[| |]]; simpl; auto. destruct (Z.even m); auto.
Qed.

(** [shr_fexp]: the shift is by [fexp (digits m + e) - e] when positive. *)
Lemma shr_fexp_shift (m e : Z) (l : location) :
  0 <= m ->
  0 < fexp prec emax (Zdigits2 m + e) - e ->
  let n := fexp prec emax (Zdigits2 m + e) - e in
  shr_m (fst (shr_fexp prec emax m e l)) = m / 2 ^ n /\
  snd (shr_fexp prec emax m e l) = e + n.
Proof.
  intros Hm Hn n. unfold shr_fexp, shr. fold n.
  destruct n as [|p|p] eqn:En; try lia. cbn [fst snd].
  rewrite iter_pos_shr_m by (rewrite shr_m_record_of_loc; exact Hm).
  now rewrite shr_m_record_of_loc.
Qed.

Lemma shr_fexp_noshift (m e : Z) (l : location) :
  fexp prec emax (Zdigits2 m + e) - e <= 0 ->
  shr_fexp prec emax m e l = (shr_record_of_loc m l, e).
Proof.
  intros Hn. unfold shr_fexp, shr.
  destruct (fexp prec emax (Zdigits2 m + e) - e) as [|p|p]; try lia; reflexivity.
Qed.

(** The exponent of the format for a number of [k] digits above the
    binary point: 53 digits of precision, least exponent -1074. *)
Lemma fexp_spec (k : Z) : fexp prec emax k = Z.max (k - 53) (-1074).
Proof. reflexivity. Qed.

(** The second normalisation and the overflow test of [binary_round_aux],
    on a mantissa of at most 53 digits (or exactly [2^53], after a carry). *)
Lemma overflow_test_rounded (sx : bool) (m1 E : Z) :
  0 <= m1 <= 2 ^ 53 -> -1074 <= E -> (-1074 < E -> 2 ^ 52 <= m1) ->
  rounded
    (let '(mrs'', e'') := shr_fexp prec emax m1 E loc_Exact in
     match shr_m mrs'' with
     | Z0 => S754_zero sx
     | Zpos m => if Z.leb e'' (Z.sub emax prec) then S754_finite sx m e''
                 else S754_infinity sx
     | _ => S754_nan
     end) sx m1 E.
Proof.
  intros [Hm0 Hm1] HE Hnorm.
  destruct (Z.eq_dec m1 0) as [->|Hnz].
  { left. split; [reflexivity|].
    rewrite shr_fexp_noshift by (rewrite fexp_spec; simpl Zdigits2; lia).
    reflexivity. }
  destruct (Z.eq_dec m1 (2 ^ 53)) as [->|Hlt].
  { right.
    assert (fexp prec emax (Zdigits2 (2 ^ 53) + E) - E = 1) as Hn
      by (rewrite fexp_spec; change (Zdigits2 (2 ^ 53)) with 54; lia).
    pose proof (shr_fexp_shift (2 ^ 53) E loc_Exact ltac:(lia) ltac:(lia))
      as [Hm He].
    rewrite Hn in Hm, He.
    destruct (shr_fexp prec emax (2 ^ 53) E loc_Exact) as [mrs'' e''].
    cbn [fst snd] in Hm, He. rewrite Hm. subst e''.
    change (2 ^ 53 / 2 ^ 1) with (Z.pos (2 ^ 52)%positive).
    exists (2 ^ 52)%positive, (E + 1).
    split; [lia|]. split; [replace (E + 1 - E) with 1 by lia; reflexivity|].
    split; [lia|]. split; [intros _; vm_compute; discriminate|reflexivity]. }
  right.
  assert (0 < m1) as Hpos by lia.
  pose proof (Zdigits2_bounds m1 Hpos) as [Hlo Hhi].
  assert (Zdigits2 m1 <= 53) as Hd by (apply Zdigits2_le; lia).
  assert (-1074 < E -> Zdigits2 m1 = 53) as Hd53.
  { intros H. specialize (Hnorm H).
    pose proof (Zdigits2_ge m1 52 ltac:(lia) Hnorm). lia. }
  rewrite shr_fexp_noshift by (rewrite fexp_spec; lia).
  rewrite shr_m_record_of_loc.
  destruct m1 as [|p|p]; try lia.
  exists p, E.
  split; [lia|]. split; [replace (E - E) with 0 by lia; simpl; lia|].
  split; [lia|]. split; [exact Hnorm|reflexivity].
Qed.

(** [binary_round_aux] truncates the mantissa to the exponent of the format
    and rounds it up by at most one. *)
Lemma binary_round_aux_rounded (sx : bool) (m e : Z) (l : location) :
  0 <= m -> e <= fexp prec emax (Zdigits2 m + e) ->
  let E := fexp prec emax (Zdigits2 m + e) in
  let M := m / 2 ^ (E - e) in
  exists m1,
    (m1 = M \/ m1 = M + 1) /\
    (l = loc_Exact -> E = e -> m1 = m) /\
    rounded (binary_round_aux prec emax sx m e l) sx m1 E.
Proof.
  intros Hm Hn E M.
  pose proof (Zdigits2_nonneg m) as Hd0.
  assert (-1074 <= E) as HE by (unfold E; rewrite fexp_spec; lia).
  assert (0 <= M <= 2 ^ 53 - 1 /\ (-1074 < E -> 2 ^ 52 <= M)) as [HM HMnorm].
  { unfold M. destruct (Z.eq_dec m 0) as [->|Hnz].
    { rewrite Z.div_0_l by (apply Z.pow_nonzero; lia). unfold E in *.
      rewrite fexp_spec in *. simpl Zdigits2 in *. lia. }
    pose proof (Zdigits2_bounds m ltac:(lia)) as [Hlo Hhi].
    pose proof (Zdigits2_pos m ltac:(lia)) as Hdpos.
    assert (0 < 2 ^ (E - e)) as Hp by (apply Z.pow_pos_nonneg; lia).
    assert (Zdigits2 m <= E - e + 53) as Hdn
      by (unfold E; rewrite fexp_spec; lia).
    split; [split|].
    - apply Z.div_pos; lia.
    - enough (m / 2 ^ (E - e) < 2 ^ 53) by lia.
      apply Z.div_lt_upper_bound; [exact Hp|].
      rewrite <- Z.pow_add_r by lia.
      assert (2 ^ Zdigits2 m <= 2 ^ (E - e + 53))
        by (apply Z.pow_le_mono_r; lia).
      lia.
    - intros Hnorm.
      assert (E - e = Zdigits2 m - 53) as Hsh
        by (unfold E in *; rewrite fexp_spec in *; lia).
      apply Z.div_le_lower_bound; [exact Hp|].
      rewrite <- Z.pow_add_r by lia.
      replace (E - e + 52) with (Zdigits2 m - 1) by lia. exact Hlo. }
  unfold binary_round_aux.
  destruct (Z.eq_dec E e) as [Heq|Hne].
  - (* no shift *)
    rewrite (shr_fexp_noshift m e l) by (fold E; lia).
    rewrite shr_m_record_of_loc, loc_of_record_of_loc.
    assert (M = m) as HMm.
    { unfold M. rewrite Heq, Z.sub_diag. simpl. apply Z.div_1_r. }
    exists (round_nearest_even m l). rewrite HMm in *.
    split; [apply round_nearest_even_range|]. split.
    + intros -> _. reflexivity.
    + rewrite <- Heq.
      destruct (round_nearest_even_range m l) as [Hr|Hr]; rewrite Hr;
        apply overflow_test_rounded; lia.
  - (* shift *)
    pose proof (shr_fexp_shift m e l Hm ltac:(fold E; lia)) as [Hsm Hse].
    fold E in Hsm, Hse. fold M in Hsm.
    destruct (shr_fexp prec emax m e l) as [mrs' e'].
    cbn [fst snd] in Hsm, Hse. rewrite Hsm. subst e'.
    replace (e + (E - e)) with E by lia.
    exists (round_nearest_even M (loc_of_shr_record mrs')).
    split; [apply round_nearest_even_range|]. split.
    + intros _ Heq. contradiction.
    + destruct (round_nearest_even_range M (loc_of_shr_record mrs'))
        as [Hr|Hr]; rewrite Hr; apply overflow_test_rounded; lia.
Qed.

End BinaryRounding.

Section RealValue.

Local Open Scope R_scope.

(** Powers of two. *)
Lemma IZR_pow2 (k : Z) : (0 <= k)%Z -> IZR (2 ^ k) = powerRZ 2 k.
Proof.
  intros Hk. rewrite <- (Z2Nat.id k Hk) at 1 2.
  rewrite <- pow_IZR, <- pow_powerRZ. reflexivity.
Qed.

Lemma pow2_pos (k : Z) : 0 < powerRZ 2 k.
Proof. apply powerRZ_lt. lra. Qed.

Lemma pow2_add (a b : Z) : powerRZ 2 (a + b) = powerRZ 2 a * powerRZ 2 b.
Proof. apply powerRZ_add. lra. Qed.

Lemma pow2_le (a b : Z) : (a <= b)%Z -> powerRZ 2 a <= powerRZ 2 b.
Proof.
  intros H. replace b with (a + (b - a))%Z by lia. rewrite pow2_add.
  rewrite <- (IZR_pow2 (b - a)) by lia.
  assert (1 <= IZR (2 ^ (b - a))).
  { apply IZR_le. pose proof (Z.pow_pos_nonneg 2 (b - a)). lia. }
  pose proof (pow2_pos a).
  rewrite <- (Rmult_1_r (powerRZ 2 a)) at 1.
  apply Rmult_le_compat_l; lra.
Qed.

Lemma sgn_abs (s : bool) (v : R) : Rabs (sgn s * v) = Rabs v.
Proof.
  destruct s; unfold sgn.
  - replace (-1 * v) with (- v) by lra. apply Rabs_Ropp.
  - now rewrite Rmult_1_l.
Qed.

(** The value of a rounded result. *)
Lemma rounded_value (z : spec_float) (sx : bool) (m1 E : Z) :
  rounded z sx m1 E ->
  IZR m1 * powerRZ 2 E < powerRZ 2 1024 ->
  SFfinite z = true /\ SF2R z = sgn sx * (IZR m1 * powerRZ 2 E).
Proof.
  intros [[-> ->]|(m'' & e'' & Hpos & Hval & HE & Hnorm & ->)] Hsmall.
  - split; [reflexivity|]. simpl. lra.
  - assert (IZR m1 * powerRZ 2 E = IZR (Z.pos m'') * powerRZ 2 e'') as Hv.
    { rewrite <- Hval, mult_IZR, IZR_pow2 by lia.
      rewrite Rmult_assoc, <- pow2_add. f_equal. f_equal. lia. }
    assert (e'' <= 971)%Z as He.
    { destruct (Z_le_gt_dec e'' 971%Z) as [|Hbig]; [assumption|exfalso].
      specialize (Hnorm ltac:(lia)).
      assert (powerRZ 2 1024 <= IZR (Z.pos m'') * powerRZ 2 e'').
      { replace 1024%Z with (52 + 972)%Z by lia. rewrite pow2_add.
        apply Rmult_le_compat.
        - apply Rlt_le, pow2_pos.
        - apply Rlt_le, pow2_pos.
        - rewrite <- IZR_pow2 by lia. now apply IZR_le.
        - apply pow2_le. lia. }
      lra. }
    apply Z.leb_le in He. rewrite He. split; [reflexivity|].
    simpl. now rewrite Hv.
Qed.

(** Rounding a positive quantity known up to one unit of [2^e]. *)
Lemma binary_round_aux_bound (sx : bool) (m e : Z) (l : location) (x : R) :
  (0 <= m)%Z -> (e <= fexp prec emax (Zdigits2 m + e))%Z ->
  IZR m * powerRZ 2 e <= x < IZR (m + 1) * powerRZ 2 e ->
  x <= 3 * powerRZ 2 1022 ->
  let z := binary_round_aux prec emax sx m e l in
  SFfinite z = true /\
  exists v, SF2R z = sgn sx * v /\ 0 <= v /\
            Rabs (v - x) <= powerRZ 2 (-52) * x + powerRZ 2 (-1074).
Proof.
  intros Hm Hn [Hlo Hhi] Hbig z.
  destruct (binary_round_aux_rounded sx m e l Hm Hn) as (m1 & Hm1 & _ & Hr).
  fold z in Hr.
  set (E := fexp prec emax (Zdigits2 m + e)) in *.
  set (M := (m / 2 ^ (E - e))%Z) in *.
  assert (0 < 2 ^ (E - e))%Z as Hp by (apply Z.pow_pos_nonneg; lia).
  assert (powerRZ 2 E = IZR (2 ^ (E - e)) * powerRZ 2 e) as HE.
  { rewrite IZR_pow2 by lia. rewrite <- pow2_add. f_equal. lia. }
  pose proof (pow2_pos e) as Hpe. pose proof (pow2_pos E) as HpE.
  assert (0 <= M)%Z as HM0 by (apply Z.div_pos; lia).
  (* the interval of [x] at the coarser unit *)
  assert (IZR M * powerRZ 2 E <= x < IZR (M + 1) * powerRZ 2 E) as [HMlo HMhi].
  { pose proof (Z.mul_div_le m (2 ^ (E - e)) Hp) as H1.
    pose proof (Z.mul_succ_div_gt m (2 ^ (E - e)) Hp) as H2.
    fold M in H1, H2. rewrite HE. split.
    - apply Rle_trans with (IZR m * powerRZ 2 e); [|exact Hlo].
      rewrite <- Rmult_assoc, <- mult_IZR.
      apply Rmult_le_compat_r; [lra|]. apply IZR_le. lia.
    - apply Rlt_le_trans with (IZR (m + 1) * powerRZ 2 e); [exact Hhi|].
      rewrite <- Rmult_assoc, <- mult_IZR.
      apply Rmult_le_compat_r; [lra|]. apply IZR_le. lia. }
  (* the unit against [x] *)
  assert (powerRZ 2 E <= powerRZ 2 (-52) * x + powerRZ 2 (-1074)) as Hulp.
  { pose proof (pow2_pos (-52)) as Hu. pose proof (pow2_pos (-1074)) as Heta.
    assert (0 <= x) as Hx0.
    { apply Rle_trans with (IZR m * powerRZ 2 e); [|exact Hlo].
      apply Rmult_le_pos; [apply IZR_le; lia|lra]. }
    destruct (Z.eq_dec E (-1074)%Z) as [->|HEn].
    { assert (0 <= powerRZ 2 (-52) * x) by (apply Rmult_le_pos; lra). lra. }
    assert (E = Zdigits2 m + e - 53)%Z as HEd
      by (unfold E in *; rewrite fexp_spec in *; lia).
    assert (0 < m)%Z as Hmpos.
    { destruct (Z.eq_dec m 0%Z) as [->|]; [|lia]. simpl Zdigits2 in *.
      unfold E in *. rewrite fexp_spec in *. lia. }
    pose proof (Zdigits2_bounds m Hmpos) as [Hdlo _].
    pose proof (Zdigits2_pos m Hmpos) as Hdpos.
    assert (powerRZ 2 (E + 52) <= x) as Hxlo.
    { apply Rle_trans with (IZR m * powerRZ 2 e); [|exact Hlo].
      replace (E + 52)%Z with ((Zdigits2 m - 1) + e)%Z by lia.
      rewrite pow2_add. apply Rmult_le_compat_r; [lra|].
      rewrite <- IZR_pow2 by lia. now apply IZR_le. }
    replace E with (-52 + (E + 52))%Z at 1 by lia. rewrite pow2_add.
    assert (powerRZ 2 (-52) * powerRZ 2 (E + 52) <= powerRZ 2 (-52) * x)
      by (apply Rmult_le_compat_l; lra).
    lra. }
  set (v := IZR m1 * powerRZ 2 E).
  assert (0 <= v /\ Rabs (v - x) <= powerRZ 2 E) as [Hv0 Hverr].
  { unfold v. destruct Hm1 as [->| ->].
    - split; [apply Rmult_le_pos; [apply IZR_le; lia|lra]|].
      rewrite Rabs_left1 by lra.
      rewrite plus_IZR in HMhi. lra.
    - split; [apply Rmult_le_pos; [apply IZR_le; lia|lra]|].
      rewrite plus_IZR in *. rewrite Rabs_right by lra. lra. }
  assert (v < powerRZ 2 1024) as Hfin.
  { assert (v <= x + powerRZ 2 E)
      by (pose proof (Rle_abs (v - x)); lra).
    assert (powerRZ 2 1024 = 4 * powerRZ 2 1022) as ->.
    { replace 1024%Z with (2 + 1022)%Z by lia. rewrite pow2_add.
      simpl. lra. }
    assert (powerRZ 2 (-1074) <= powerRZ 2 (-52) * powerRZ 2 1022).
    { rewrite <- pow2_add. apply pow2_le. lia. }
    assert (powerRZ 2 (-52) <= / 8).
    { replace (/ 8) with (powerRZ 2 (-3)) by (simpl; lra).
      apply pow2_le. lia. }
    pose proof (pow2_pos 1022). pose proof (pow2_pos (-52)).
    assert (powerRZ 2 (-52) * x <= powerRZ 2 (-52) * (3 * powerRZ 2 1022))
      by (apply Rmult_le_compat_l; lra).
    assert (powerRZ 2 (-52) * powerRZ 2 1022 <= / 8 * powerRZ 2 1022)
      by (apply Rmult_le_compat_r; lra).
    lra. }
  destruct (rounded_value z sx m1 E Hr Hfin) as [Hzf Hzv].
  split; [exact Hzf|]. exists v. split; [exact Hzv|]. split; [exact Hv0|].
  lra.
Qed.

(** A number that a primitive float stands for has its exponent fixed by
    the number of its digits, and at most 53 of them. *)
Lemma valid_canonical (s : bool) (m : positive) (e : Z) :
  valid_binary (S754_finite s m e) = true ->
  fexp prec emax (Zdigits2 (Z.pos m) + e) = e /\ (e <= 971)%Z.
Proof.
  unfold SpecFloat.valid_binary, bounded, canonical_mantissa. intros H.
  apply andb_true_iff in H as [Hc He].
  apply Z.eqb_eq in Hc. apply Z.leb_le in He.
  split; [exact Hc|exact He].
Qed.

Lemma sgn_xorb (a b : bool) : sgn (xorb a b) = sgn a * sgn b.
Proof. destruct a, b; unfold sgn; simpl; lra. Qed.

Lemma sgn_sq (s : bool) : sgn s * sgn s = 1.
Proof. destruct s; unfold sgn; lra. Qed.

Lemma sgn_nonzero (s : bool) : sgn s <> 0.
Proof. destruct s; unfold sgn; lra. Qed.

Lemma abs_sgn_diff (s : bool) (v x : R) :
  Rabs (sgn s * v - sgn s * x) = Rabs (v - x).
Proof. rewrite <- Rmult_minus_distr_l. apply sgn_abs. Qed.

Lemma Zdigits2_mul_ge (a b : positive) :
  (Zdigits2 (Z.pos a) + Zdigits2 (Z.pos b) - 1
   <= Zdigits2 (Z.pos (a * b)))%Z.
Proof.
  pose proof (Zdigits2_bounds (Z.pos a) ltac:(lia)) as [Ha _].
  pose proof (Zdigits2_bounds (Z.pos b) ltac:(lia)) as [Hb _].
  pose proof (Zdigits2_pos (Z.pos a) ltac:(lia)) as Hda.
  pose proof (Zdigits2_pos (Z.pos b) ltac:(lia)) as Hdb.
  pose proof (Zdigits2_ge (Z.pos (a * b))
                (Zdigits2 (Z.pos a) - 1 + (Zdigits2 (Z.pos b) - 1))
                ltac:(lia)) as H.
  rewrite Z.pow_add_r in H by lia. rewrite Pos2Z.inj_mul in *.
  assert (2 ^ (Zdigits2 (Z.pos a) - 1) * 2 ^ (Zdigits2 (Z.pos b) - 1)
          <= Z.pos a * Z.pos b)%Z by (apply Z.mul_le_mono_nonneg; lia).
  lia.
Qed.

(** Multiplication. *)
Lemma SFmul_bound (x y : spec_float) :
  valid_binary x = true -> valid_binary y = true ->
  SFfinite x = true -> SFfinite y = true ->
  Rabs (SF2R x * SF2R y) <= safe_range ->
  SFfinite (SF64mul x y) = true /\
  Rabs (SF2R (SF64mul x y) - SF2R x * SF2R y)
  <= rel_err * Rabs (SF2R x * SF2R y) + abs_err.
Proof.
  intros Hvx Hvy Hfx Hfy Hbig.
  assert (0 <= abs_err) as Heta by (apply Rlt_le, pow2_pos).
  destruct x as [sx|sx| |sx mx ex]; try discriminate;
    destruct y as [sy|sy| |sy my ey]; try discriminate;
    unfold SF64mul, SFmul.
  1-3: split; [reflexivity|]; simpl SF2R;
       rewrite ?Rmult_0_l, ?Rmult_0_r, Rminus_0_r, Rabs_R0; lra.
  destruct (valid_canonical _ _ _ Hvx) as [Hcx _].
  destruct (valid_canonical _ _ _ Hvy) as [Hcy _].
  set (X := IZR (Z.pos (mx * my)) * powerRZ 2 (ex + ey)).
  assert (SF2R (S754_finite sx mx ex) * SF2R (S754_finite sy my ey)
          = sgn (xorb sx sy) * X) as Hprod.
  { unfold X. simpl SF2R. rewrite sgn_xorb, Pos2Z.inj_mul, mult_IZR, pow2_add.
    ring. }
  rewrite Hprod in *. rewrite sgn_abs in *.
  assert (0 <= X) as HX0.
  { unfold X. apply Rmult_le_pos; [apply IZR_le; lia|apply Rlt_le, pow2_pos]. }
  rewrite (Rabs_right X) in * by lra.
  destruct (binary_round_aux_bound (xorb sx sy) (Z.pos (mx * my)) (ex + ey)
              loc_Exact X) as (Hfin & v & Hv & Hv0 & Herr).
  - lia.
  - pose proof (Zdigits2_mul_ge mx my) as Hd.
    pose proof (Zdigits2_pos (Z.pos mx) ltac:(lia)).
    pose proof (Zdigits2_pos (Z.pos my) ltac:(lia)).
    rewrite fexp_spec in *. lia.
  - unfold X. split; [lra|]. rewrite plus_IZR.
    pose proof (pow2_pos (ex + ey)). lra.
  - exact Hbig.
  - split; [exact Hfin|]. rewrite Hv, abs_sgn_diff. exact Herr.
Qed.

Lemma valid_digits (s : bool) (m : positive) (e : Z) :
  valid_binary (S754_finite s m e) = true ->
  (Zdigits2 (Z.pos m) <= 53)%Z.
Proof.
  intros H. destruct (valid_canonical _ _ _ H) as [Hc _].
  rewrite fexp_spec in Hc. lia.
Qed.

(** The integer quotient computed by [SFdiv_core_binary] has enough digits
    and is the exact quotient truncated. *)
Lemma div_core_spec (m1 m2 : positive) (e1 e2 : Z) :
  (Zdigits2 (Z.pos m1) <= 53)%Z ->
  exists q e' l,
    SFdiv_core_binary prec emax (Z.pos m1) e1 (Z.pos m2) e2 = (q, e', l) /\
    (0 <= q)%Z /\
    (e' <= fexp prec emax (Zdigits2 q + e'))%Z /\
    IZR q * powerRZ 2 e'
    <= IZR (Z.pos m1) * powerRZ 2 e1 / (IZR (Z.pos m2) * powerRZ 2 e2)
    < IZR (q + 1) * powerRZ 2 e'.
Proof.
  intros Hd1. unfold SFdiv_core_binary.
  set (d1 := Zdigits2 (Z.pos m1)) in *. set (d2 := Zdigits2 (Z.pos m2)).
  change IntDef.Z.min with Z.min. change IntDef.Z.div_eucl with Z.div_eucl.
  change IntDef.Z.shiftl with Z.shiftl.
  set (e' := Z.min (fexp prec emax (d1 + e1 - (d2 + e2))) (e1 - e2)).
  set (s := (e1 - e2 - e')%Z).
  assert (0 <= s)%Z as Hs by (unfold s, e'; lia).
  set (m' := match s with
             | 0%Z => Z.pos m1 | Z.pos _ => Z.shiftl (Z.pos m1) s | Z.neg _ => 0%Z
             end).
  assert (m' = Z.pos m1 * 2 ^ s)%Z as Hm'.
  { unfold m'. destruct s as [|p|p] eqn:Es; try lia.
    - rewrite Z.shiftl_mul_pow2 by lia. reflexivity. }
  clearbody m'.
  pose proof (Z_div_mod m' (Z.pos m2) ltac:(lia)) as Hdm.
  destruct (Z.div_eucl m' (Z.pos m2)) as [q r]. destruct Hdm as [Hqr Hr].
  exists q, e', (new_location (Z.pos m2) r). split; [reflexivity|].
  assert (0 < 2 ^ s)%Z as Hps by (apply Z.pow_pos_nonneg; lia).
  assert (0 <= q)%Z as Hq by nia.
  pose proof (Zdigits2_bounds (Z.pos m1) ltac:(lia)) as [Hlo1 _].
  pose proof (Zdigits2_bounds (Z.pos m2) ltac:(lia)) as [_ Hhi2].
  pose proof (Zdigits2_pos (Z.pos m1) ltac:(lia)) as Hp1.
  pose proof (Zdigits2_pos (Z.pos m2) ltac:(lia)) as Hp2.
  fold d1 in Hlo1, Hp1. fold d2 in Hhi2, Hp2.
  split; [exact Hq|]. split.
  - rewrite fexp_spec. destruct (Z_le_gt_dec e' (-1074)%Z) as [Hle|Hgt]; [lia|].
    assert (e' = d1 + e1 - (d2 + e2) - 53)%Z as He'
      by (unfold e' in *; rewrite fexp_spec in *; lia).
    assert (s = 53 - d1 + d2)%Z as Hs' by (unfold s; lia).
    assert (2 ^ 52 <= q)%Z as Hq52.
    { assert (2 ^ 52 * Z.pos m2 < m')%Z as Hlt.
      { rewrite Hm', Hs'.
        replace (53 - d1 + d2)%Z with ((52 + d2) - (d1 - 1))%Z by lia.
        assert (2 ^ (52 + d2) = 2 ^ (d1 - 1) * 2 ^ (52 + d2 - (d1 - 1)))%Z as Hsplit
          by (rewrite <- Z.pow_add_r by lia; f_equal; lia).
        assert (0 < 2 ^ (52 + d2 - (d1 - 1)))%Z by (apply Z.pow_pos_nonneg; lia).
        assert (2 ^ (52 + d2) = 2 ^ 52 * 2 ^ d2)%Z as Hsplit2
          by (rewrite <- Z.pow_add_r by lia; reflexivity).
        assert (2 ^ 52 * Z.pos m2 < 2 ^ 52 * 2 ^ d2)%Z by lia.
        assert (2 ^ (d1 - 1) * 2 ^ (52 + d2 - (d1 - 1))
                <= Z.pos m1 * 2 ^ (52 + d2 - (d1 - 1)))%Z by nia.
        lia. }
      nia. }
    pose proof (Zdigits2_ge q 52 ltac:(lia) Hq52). lia.
  - assert (0 < IZR (Z.pos m2)) as Hm2 by (apply IZR_lt; lia).
    pose proof (pow2_pos e2) as He2. pose proof (pow2_pos e') as Hpe'.
    assert (powerRZ 2 e1 = powerRZ 2 s * powerRZ 2 e' * powerRZ 2 e2) as He1.
    { rewrite <- !pow2_add. f_equal. unfold s. lia. }
    assert (IZR (Z.pos m1) * powerRZ 2 s = IZR (Z.pos m2) * IZR q + IZR r) as Hreal.
    { rewrite <- (IZR_pow2 s) by lia. rewrite <- !mult_IZR, <- plus_IZR.
      f_equal. lia. }
    assert (IZR (Z.pos m1) * powerRZ 2 e1 / (IZR (Z.pos m2) * powerRZ 2 e2)
            = (IZR q + IZR r / IZR (Z.pos m2)) * powerRZ 2 e') as HX.
    { rewrite He1.
      replace (IZR (Z.pos m1) * (powerRZ 2 s * powerRZ 2 e' * powerRZ 2 e2))
        with ((IZR (Z.pos m1) * powerRZ 2 s) * powerRZ 2 e' * powerRZ 2 e2) by ring.
      rewrite Hreal. field. split; lra. }
    rewrite HX, plus_IZR.
    assert (0 <= IZR r / IZR (Z.pos m2) < 1) as [Hr0 Hr1].
    { split.
      - apply Rmult_le_pos; [apply IZR_le; lia|].
        apply Rlt_le, Rinv_0_lt_compat, Hm2.
      - apply (Rmult_lt_reg_r (IZR (Z.pos m2))); [exact Hm2|].
        unfold Rdiv. rewrite Rmult_assoc, Rinv_l, Rmult_1_r, Rmult_1_l by lra.
        apply IZR_lt. lia. }
    split.
    + apply Rmult_le_compat_r; lra.
    + apply Rmult_lt_compat_r; lra.
Qed.

(** Division by a number other than zero. *)
Lemma SFdiv_bound (x : spec_float) (sy : bool) (my : positive) (ey : Z) :
  valid_binary x = true ->
  SFfinite x = true ->
  let y := S754_finite sy my ey in
  Rabs (SF2R x / SF2R y) <= safe_range ->
  SFfinite (SF64div x y) = true /\
  Rabs (SF2R (SF64div x y) - SF2R x / SF2R y)
  <= rel_err * Rabs (SF2R x / SF2R y) + abs_err.
Proof.
  intros Hvx Hfx y Hbig.
  assert (0 <= abs_err) as Heta by (apply Rlt_le, pow2_pos).
  destruct x as [sx|sx| |sx mx ex]; try discriminate;
    unfold SF64div, SFdiv, y in *.
  - split; [reflexivity|]. cbn [SF2R].
    unfold Rdiv. rewrite Rmult_0_l, Rminus_0_r, Rabs_R0. lra.
  - destruct (div_core_spec mx my ex ey (valid_digits _ _ _ Hvx))
      as (q & e' & l & Hcore & Hq & Hcanon & Hrange).
    rewrite Hcore.
    set (X := IZR (Z.pos mx) * powerRZ 2 ex / (IZR (Z.pos my) * powerRZ 2 ey)) in *.
    assert (0 < IZR (Z.pos my) * powerRZ 2 ey) as Hy.
    { apply Rmult_lt_0_compat; [apply IZR_lt; lia|apply pow2_pos]. }
    assert (SF2R (S754_finite sx mx ex) / SF2R (S754_finite sy my ey)
            = sgn (xorb sx sy) * X) as Hquot.
    { assert (0 < IZR (Z.pos my)) by (apply IZR_lt; lia).
      pose proof (pow2_pos ey).
      unfold X. destruct sx, sy; cbn [SF2R sgn xorb]; field; repeat split; lra. }
    rewrite Hquot in *. rewrite sgn_abs in *.
    assert (0 <= X) as HX0.
    { unfold X. apply Rmult_le_pos.
      - apply Rmult_le_pos; [apply IZR_le; lia|apply Rlt_le, pow2_pos].
      - apply Rlt_le, Rinv_0_lt_compat, Hy. }
    rewrite (Rabs_right X) in * by lra.
    destruct (binary_round_aux_bound (xorb sx sy) q e' l X Hq Hcanon Hrange Hbig)
      as (Hfin & v & Hv & Hv0 & Herr).
    split; [exact Hfin|]. rewrite Hv, abs_sgn_diff. exact Herr.
Qed.

(** Aligning two mantissas to the smaller exponent, for a sum. *)
Lemma iter_xO (d m : positive) :
  (Z.pos (Pos.iter xO m d) = Z.pos m * 2 ^ Z.pos d)%Z.
Proof.
  induction d as [|d IH] using Pos.peano_ind.
  - simpl. lia.
  - rewrite Pos.iter_succ, Pos2Z.inj_xO, IH, Pos2Z.inj_succ, Z.pow_succ_r by lia.
    ring.
Qed.

Lemma shl_align_spec (m : positive) (e e' : Z) :
  snd (shl_align m e e') = Z.min e e' /\
  (Z.pos (fst (shl_align m e e'))
   = Z.pos m * 2 ^ (e - snd (shl_align m e e')))%Z.
Proof.
  unfold shl_align. change (@PosDef.Pos.iter) with (@Pos.iter).
  destruct (e' - e)%Z as [|d|d] eqn:E; cbn [fst snd].
  - split; [lia|]. rewrite Z.sub_diag. simpl. lia.
  - split; [lia|]. rewrite Z.sub_diag. simpl. lia.
  - split; [lia|]. rewrite iter_xO. f_equal. f_equal. lia.
Qed.

Lemma Zdigits2_shift (m k : Z) :
  (0 < m)%Z -> (0 <= k)%Z -> (Zdigits2 (m * 2 ^ k) = Zdigits2 m + k)%Z.
Proof.
  intros Hm Hk. pose proof (Zdigits2_bounds m Hm) as [Hlo Hhi].
  pose proof (Zdigits2_pos m Hm) as Hd.
  assert (0 < 2 ^ k)%Z as Hp by (apply Z.pow_pos_nonneg; lia).
  apply Zdigits2_unique; [|nia].
  replace (Zdigits2 m + k - 1)%Z with ((Zdigits2 m - 1) + k)%Z by lia.
  rewrite !Z.pow_add_r by lia. split; nia.
Qed.

Lemma binary_round_bound (sx : bool) (m : positive) (e : Z) :
  IZR (Z.pos m) * powerRZ 2 e <= safe_range ->
  SFfinite (binary_round prec emax sx m e) = true /\
  exists v, SF2R (binary_round prec emax sx m e) = sgn sx * v /\ 0 <= v /\
            Rabs (v - IZR (Z.pos m) * powerRZ 2 e)
            <= rel_err * (IZR (Z.pos m) * powerRZ 2 e) + abs_err.
Proof.
  intros Hbig. unfold binary_round.
  change (Z.pos (digits2_pos m)) with (Zdigits2 (Z.pos m)).
  destruct (shl_align_spec m e (fexp prec emax (Zdigits2 (Z.pos m) + e)))
    as [Hez Hmz].
  destruct (shl_align m e (fexp prec emax (Zdigits2 (Z.pos m) + e)))
    as [mz ez]. cbn [fst snd] in *.
  assert (IZR (Z.pos m) * powerRZ 2 e = IZR (Z.pos mz) * powerRZ 2 ez) as HX.
  { rewrite Hmz, mult_IZR, IZR_pow2 by lia. rewrite Rmult_assoc, <- pow2_add.
    do 2 f_equal. lia. }
  rewrite HX in *.
  apply binary_round_aux_bound.
  - lia.
  - rewrite Hmz, Zdigits2_shift by lia.
    replace (Zdigits2 (Z.pos m) + (e - ez) + ez)%Z
      with (Zdigits2 (Z.pos m) + e)%Z by lia.
    lia.
  - split; [lra|]. rewrite plus_IZR. pose proof (pow2_pos ez). lra.
  - exact Hbig.
Qed.

Lemma binary_normalize_bound (S e : Z) :
  Rabs (IZR S * powerRZ 2 e) <= safe_range ->
  SFfinite (binary_normalize prec emax S e false) = true /\
  Rabs (SF2R (binary_normalize prec emax S e false) - IZR S * powerRZ 2 e)
  <= rel_err * Rabs (IZR S * powerRZ 2 e) + abs_err.
Proof.
  intros Hbig. pose proof (pow2_pos e) as He.
  assert (0 <= abs_err) as Heta by (apply Rlt_le, pow2_pos).
  destruct S as [|p|p]; unfold binary_normalize.
  - split; [reflexivity|]. cbn [SF2R].
    rewrite Rmult_0_l, Rminus_0_r, Rabs_R0. lra.
  - assert (0 <= IZR (Z.pos p) * powerRZ 2 e) as H0.
    { apply Rmult_le_pos; [apply IZR_le; lia|lra]. }
    rewrite (Rabs_right (IZR (Z.pos p) * powerRZ 2 e)) in * by lra.
    destruct (binary_round_bound false p e Hbig) as (Hfin & v & Hv & _ & Herr).
    split; [exact Hfin|]. rewrite Hv. unfold sgn. rewrite Rmult_1_l. exact Herr.
  - assert (0 <= IZR (Z.pos p) * powerRZ 2 e) as H0.
    { apply Rmult_le_pos; [apply IZR_le; lia|lra]. }
    assert (IZR (Z.neg p) * powerRZ 2 e = sgn true * (IZR (Z.pos p) * powerRZ 2 e))
      as Hneg.
    { change (Z.neg p) with (- Z.pos p)%Z. rewrite opp_IZR. unfold sgn. ring. }
    rewrite Hneg in *. rewrite sgn_abs in *.
    rewrite (Rabs_right (IZR (Z.pos p) * powerRZ 2 e)) in * by lra.
    destruct (binary_round_bound true p e Hbig) as (Hfin & v & Hv & _ & Herr).
    split; [exact Hfin|]. rewrite Hv, abs_sgn_diff. exact Herr.
Qed.

Lemma aligned_value (s : bool) (m : positive) (e e' : Z) :
  (e' <= e)%Z ->
  IZR (cond_Zopp s (Z.pos (fst (shl_align m e e')))) * powerRZ 2 e'
  = SF2R (S754_finite s m e).
Proof.
  intros Hle. destruct (shl_align_spec m e e') as [Hsnd Hfst].
  rewrite Hfst, Hsnd. replace (Z.min e e') with e' by lia.
  cbn [SF2R].
  replace (powerRZ 2 e) with (powerRZ 2 (e - e') * powerRZ 2 e')
    by (rewrite <- pow2_add; f_equal; lia).
  destruct s; unfold cond_Zopp, sgn;
    rewrite ?opp_IZR, mult_IZR, IZR_pow2 by lia; ring.
Qed.

Lemma exact_bound (x : R) : Rabs (x - x) <= rel_err * Rabs x + abs_err.
Proof.
  replace (x - x) with 0 by ring. rewrite Rabs_R0.
  pose proof (Rabs_pos x). pose proof (pow2_pos (-52)). pose proof (pow2_pos (-1074)).
  unfold rel_err, abs_err. nra.
Qed.

(** Addition. *)
Lemma SFadd_bound (x y : spec_float) :
  SFfinite x = true -> SFfinite y = true ->
  Rabs (SF2R x + SF2R y) <= safe_range ->
  SFfinite (SF64add x y) = true /\
  Rabs (SF2R (SF64add x y) - (SF2R x + SF2R y))
  <= rel_err * Rabs (SF2R x + SF2R y) + abs_err.
Proof.
  intros Hfx Hfy Hbig.
  destruct x as [sx|sx| |sx mx ex]; try discriminate;
    destruct y as [sy|sy| |sy my ey]; try discriminate;
    unfold SF64add, SFadd.
  - split; [destruct sx, sy; reflexivity|].
    replace (SF2R (if sx then if sy then S754_zero sx else S754_zero false
                   else if sy then S754_zero false else S754_zero sx))
      with (SF2R (S754_zero sx) + SF2R (S754_zero sy))
      by (destruct sx, sy; cbn [SF2R]; ring).
    apply exact_bound.
  - split; [reflexivity|].
    replace (SF2R (S754_zero sx) + SF2R (S754_finite sy my ey))
      with (SF2R (S754_finite sy my ey)) by (cbn [SF2R]; ring).
    apply exact_bound.
  - split; [reflexivity|].
    replace (SF2R (S754_finite sx mx ex) + SF2R (S754_zero sy))
      with (SF2R (S754_finite sx mx ex)) by (cbn [SF2R]; ring).
    apply exact_bound.
  - change IntDef.Z.min with Z.min. cbv zeta.
    set (ez := Z.min ex ey).
    set (S := (cond_Zopp sx (Z.pos (fst (shl_align mx ex ez))) +
               cond_Zopp sy (Z.pos (fst (shl_align my ey ez))))%Z).
    assert (IZR S * powerRZ 2 ez
            = SF2R (S754_finite sx mx ex) + SF2R (S754_finite sy my ey)) as HS.
    { unfold S. rewrite plus_IZR, Rmult_plus_distr_r.
      rewrite !aligned_value by (unfold ez; lia). reflexivity. }
    rewrite <- HS in *. apply binary_normalize_bound. exact Hbig.
Qed.

(** Subtraction. *)
Lemma SFsub_bound (x y : spec_float) :
  SFfinite x = true -> SFfinite y = true ->
  Rabs (SF2R x - SF2R y) <= safe_range ->
  SFfinite (SF64sub x y) = true /\
  Rabs (SF2R (SF64sub x y) - (SF2R x - SF2R y))
  <= rel_err * Rabs (SF2R x - SF2R y) + abs_err.
Proof.
  intros Hfx Hfy Hbig.
  destruct x as [sx|sx| |sx mx ex]; try discriminate;
    destruct y as [sy|sy| |sy my ey]; try discriminate;
    unfold SF64sub, SFsub.
  - split; [destruct sx, sy; reflexivity|].
    replace (SF2R (if sx then if sy then S754_zero false else S754_zero sx
                   else if sy then S754_zero sx else S754_zero false))
      with (SF2R (S754_zero sx) - SF2R (S754_zero sy))
      by (destruct sx, sy; cbn [SF2R]; ring).
    apply exact_bound.
  - split; [reflexivity|].
    replace (SF2R (S754_zero sx) - SF2R (S754_finite sy my ey))
      with (SF2R (S754_finite (negb sy) my ey))
      by (destruct sy; cbn [SF2R sgn negb]; ring).
    apply exact_bound.
  - split; [reflexivity|].
    replace (SF2R (S754_finite sx mx ex) - SF2R (S754_zero sy))
      with (SF2R (S754_finite sx mx ex)) by (cbn [SF2R]; ring).
    apply exact_bound.
  - change IntDef.Z.min with Z.min. cbv zeta.
    set (ez := Z.min ex ey).
    set (S := (cond_Zopp sx (Z.pos (fst (shl_align mx ex ez))) -
               cond_Zopp sy (Z.pos (fst (shl_align my ey ez))))%Z).
    assert (IZR S * powerRZ 2 ez
            = SF2R (S754_finite sx mx ex) - SF2R (S754_finite sy my ey)) as HS.
    { unfold S. rewrite minus_IZR, Rmult_minus_distr_r.
      rewrite !aligned_value by (unfold ez; lia). reflexivity. }
    rewrite <- HS in *. apply binary_normalize_bound. exact Hbig.
Qed.

(** *** Primitive floats

    The same bounds for the operations of [PrimFloat]. *)

Lemma number_value_spec (x : float) (v : R) :
  number_value x = Some v <->
  SFfinite (Prim2SF x) = true /\ SF2R (Prim2SF x) = v.
Proof.
  unfold number_value. destruct (Prim2SF x) as [s|s| |s m e]; cbn [SFfinite];
    split.
  - intros [= <-]. split; reflexivity.
  - intros [_ <-]. reflexivity.
  - discriminate.
  - intros [H _]. discriminate H.
  - discriminate.
  - intros [H _]. discriminate H.
  - intros [= <-]. split; reflexivity.
  - intros [_ <-]. reflexivity.
Qed.

Lemma pow2_neg (k : Z) : (0 <= k)%Z -> powerRZ 2 (- k) = / IZR (2 ^ k).
Proof.
  intros Hk. rewrite IZR_pow2 by exact Hk.
  pose proof (pow2_pos k) as Hp. pose proof (pow2_add (- k) k) as Hadd.
  replace (- k + k)%Z with 0%Z in Hadd by lia. change (powerRZ 2 0) with 1 in Hadd.
  apply (Rmult_eq_reg_r (powerRZ 2 k)); [|lra].
  rewrite <- Hadd, Rinv_l by lra. reflexivity.
Qed.

Lemma number_value_9 : number_value 9 = Some 9.
Proof.
  unfold number_value.
  replace (Prim2SF 9) with (S754_finite false 5066549580791808 (-49))
    by (vm_compute; reflexivity).
  cbn [SF2R sgn]. f_equal. replace (powerRZ 2 (-49)) with (/ IZR (2 ^ 49))
    by (symmetry; apply (pow2_neg 49); lia).
  change (2 ^ 49)%Z with 562949953421312%Z. lra.
Qed.

Lemma number_value_5 : number_value 5 = Some 5.
Proof.
  unfold number_value.
  replace (Prim2SF 5) with (S754_finite false 5629499534213120 (-50))
    by (vm_compute; reflexivity).
  cbn [SF2R sgn]. f_equal. replace (powerRZ 2 (-50)) with (/ IZR (2 ^ 50))
    by (symmetry; apply (pow2_neg 50); lia).
  change (2 ^ 50)%Z with 1125899906842624%Z. lra.
Qed.

Lemma number_value_32 : number_value 32 = Some 32.
Proof.
  unfold number_value.
  replace (Prim2SF 32) with (S754_finite false 4503599627370496 (-47))
    by (vm_compute; reflexivity).
  cbn [SF2R sgn]. f_equal. replace (powerRZ 2 (-47)) with (/ IZR (2 ^ 47))
    by (symmetry; apply (pow2_neg 47); lia).
  change (2 ^ 47)%Z with 140737488355328%Z. lra.
Qed.

Lemma number_value_100 : number_value 100 = Some 100.
Proof.
  unfold number_value.
  replace (Prim2SF 100) with (S754_finite false 7036874417766400 (-46))
    by (vm_compute; reflexivity).
  cbn [SF2R sgn]. f_equal. replace (powerRZ 2 (-46)) with (/ IZR (2 ^ 46))
    by (symmetry; apply (pow2_neg 46); lia).
  change (2 ^ 46)%Z with 70368744177664%Z. lra.
Qed.

Lemma mul_bound (x y : float) (vx vy : R) :
  number_value x = Some vx -> number_value y = Some vy ->
  Rabs (vx * vy) <= safe_range ->
  exists v, number_value (x * y) = Some v /\
            Rabs (v - vx * vy) <= rel_err * Rabs (vx * vy) + abs_err.
Proof.
  intros Hx Hy Hbig. apply number_value_spec in Hx as [Hfx <-].
  apply number_value_spec in Hy as [Hfy <-].
  destruct (SFmul_bound (Prim2SF x) (Prim2SF y) (Prim2SF_valid x)
              (Prim2SF_valid y) Hfx Hfy Hbig) as [Hfin Herr].
  exists (SF2R (Prim2SF (x * y))). rewrite number_value_spec, mul_spec.
  auto.
Qed.

Lemma div_bound (x y : float) (vx vy : R) :
  number_value x = Some vx -> number_value y = Some vy ->
  vy <> 0 ->
  Rabs (vx / vy) <= safe_range ->
  exists v, number_value (x / y) = Some v /\
            Rabs (v - vx / vy) <= rel_err * Rabs (vx / vy) + abs_err.
Proof.
  intros Hx Hy Hnz Hbig. apply number_value_spec in Hx as [Hfx <-].
  apply number_value_spec in Hy as [Hfy <-].
  exists (SF2R (Prim2SF (x / y))). rewrite number_value_spec, div_spec.
  destruct (Prim2SF y) as [sy|sy| |sy my ey] eqn:Ey; try discriminate.
  - exfalso. apply Hnz. reflexivity.
  - destruct (SFdiv_bound (Prim2SF x) sy my ey (Prim2SF_valid x) Hfx Hbig)
      as [Hfin Herr].
    auto.
Qed.

Lemma add_bound (x y : float) (vx vy : R) :
  number_value x = Some vx -> number_value y = Some vy ->
  Rabs (vx + vy) <= safe_range ->
  exists v, number_value (x + y) = Some v /\
            Rabs (v - (vx + vy)) <= rel_err * Rabs (vx + vy) + abs_err.
Proof.
  intros Hx Hy Hbig. apply number_value_spec in Hx as [Hfx <-].
  apply number_value_spec in Hy as [Hfy <-].
  destruct (SFadd_bound (Prim2SF x) (Prim2SF y) Hfx Hfy Hbig) as [Hfin Herr].
  exists (SF2R (Prim2SF (x + y))). rewrite number_value_spec, add_spec.
  auto.
Qed.

Lemma sub_bound (x y : float) (vx vy : R) :
  number_value x = Some vx -> number_value y = Some vy ->
  Rabs (vx - vy) <= safe_range ->
  exists v, number_value (x - y) = Some v /\
            Rabs (v - (vx - vy)) <= rel_err * Rabs (vx - vy) + abs_err.
Proof.
  intros Hx Hy Hbig. apply number_value_spec in Hx as [Hfx <-].
  apply number_value_spec in Hy as [Hfy <-].
  destruct (SFsub_bound (Prim2SF x) (Prim2SF y) Hfx Hfy Hbig) as [Hfin Herr].
  exists (SF2R (Prim2SF (x - y))). rewrite number_value_spec, sub_spec.
  auto.
Qed.

(** *** The round trip

    Six rounded operations: [* 9], [/ 5], [+ 32], then [- 32], [* 5],
    [/ 9]. *)

Lemma rel_err_value : rel_err = / 4503599627370496.
Proof. unfold rel_err. replace (powerRZ 2 (-52)) with (/ IZR (2 ^ 52))
    by (symmetry; apply (pow2_neg 52); lia). reflexivity. Qed.

Lemma abs_err_range : 0 < abs_err <= rel_err.
Proof. split; [apply pow2_pos|apply pow2_le; lia]. Qed.

Lemma safe_range_value : safe_range = 12 * powerRZ 2 1020.
Proof.
  unfold safe_range. replace 1022%Z with (2 + 1020)%Z by lia. rewrite pow2_add.
  change (powerRZ 2 2) with (2 * (2 * 1)). ring.
Qed.

Lemma pow2_1020_large : 1024 <= powerRZ 2 1020.
Proof.
  replace 1024 with (powerRZ 2 10).
  - apply pow2_le. lia.
  - rewrite <- (IZR_pow2 10) by lia. reflexivity.
Qed.

Lemma abs_le_iff (a b : R) : Rabs a <= b <-> - b <= a <= b.
Proof.
  split.
  - intros H. unfold Rabs in H. destruct (Rcase_abs a); lra.
  - intros H. unfold Rabs. destruct (Rcase_abs a); lra.
Qed.

(** The errors of the six operations add up to less than
    [2^-49 * (|a| + 32)]; no intermediate result leaves [safe_range]. *)
Lemma round_trip_bound (c : float) (a : R) :
  number_value c = Some a ->
  Rabs a <= powerRZ 2 1020 ->
  exists v',
    number_value (convertToCelsius (WeatherCard.convertToFahrenheit c))
      = Some v' /\
    Rabs (v' - a) <= powerRZ 2 (-49) * (Rabs a + 32).
Proof.
  intros Hc Ha. unfold convertToCelsius, WeatherCard.convertToFahrenheit.
  pose proof rel_err_value as Hu. pose proof abs_err_range as [He0 Heu].
  pose proof safe_range_value as Hbig. pose proof pow2_1020_large as HP.
  set (P := powerRZ 2 1020) in *.
  assert (powerRZ 2 (-49) = 8 * rel_err) as H49.
  { unfold rel_err. replace (-49)%Z with (3 + -52)%Z by lia. rewrite pow2_add.
    change (powerRZ 2 3) with (2 * (2 * (2 * 1))). ring. }
  rewrite H49. clear H49.
  set (A := Rabs a) in *.
  assert (- A <= a <= A) as Habs by (apply abs_le_iff; unfold A; lra).
  assert (0 <= A) as HA0 by (unfold A; apply Rabs_pos).
  rewrite Hu in Heu |- *.
  (* c * 9 *)
  destruct (mul_bound c 9 a 9 Hc number_value_9) as (t1 & H1 & E1).
  { apply abs_le_iff. lra. }
  assert (Rabs (a * 9) <= 9 * A) as M1 by (apply abs_le_iff; lra).
  assert (- (/ 4503599627370496 * (9 * A + 1)) <= t1 - 9 * a
          <= / 4503599627370496 * (9 * A + 1)) as B1.
  { rewrite Hu in E1. apply abs_le_iff in E1. lra. }
  clear E1 M1.
  (* / 5 *)
  destruct (div_bound (c * 9) 5 t1 5 H1 number_value_5) as (t2 & H2 & E2).
  { lra. }
  { apply abs_le_iff. lra. }
  assert (Rabs (t1 / 5) <= 2 * A + 1) as M2 by (apply abs_le_iff; lra).
  assert (- (/ 4503599627370496 * (4 * A + 3)) <= t2 - 9 * a / 5
          <= / 4503599627370496 * (4 * A + 3)) as B2.
  { rewrite Hu in E2. apply abs_le_iff in E2. lra. }
  clear E2 M2.
  (* + 32 *)
  destruct (add_bound (c * 9 / 5) 32 t2 32 H2 number_value_32) as (t3 & H3 & E3).
  { apply abs_le_iff. lra. }
  assert (Rabs (t2 + 32) <= 2 * A + 33) as M3 by (apply abs_le_iff; lra).
  assert (- (/ 4503599627370496 * (6 * A + 37)) <= t3 - (9 * a / 5 + 32)
          <= / 4503599627370496 * (6 * A + 37)) as B3.
  { rewrite Hu in E3. apply abs_le_iff in E3. lra. }
  clear E3 M3.
  (* - 32 *)
  destruct (sub_bound (c * 9 / 5 + 32) 32 t3 32 H3 number_value_32)
    as (t4 & H4 & E4).
  { apply abs_le_iff. lra. }
  assert (Rabs (t3 - 32) <= 2 * A + 1) as M4 by (apply abs_le_iff; lra).
  assert (- (/ 4503599627370496 * (8 * A + 39)) <= t4 - 9 * a / 5
          <= / 4503599627370496 * (8 * A + 39)) as B4.
  { rewrite Hu in E4. apply abs_le_iff in E4. lra. }
  clear E4 M4.
  (* * 5 *)
  destruct (mul_bound (c * 9 / 5 + 32 - 32) 5 t4 5 H4 number_value_5)
    as (t5 & H5 & E5).
  { apply abs_le_iff. lra. }
  assert (Rabs (t4 * 5) <= 10 * A + 1) as M5 by (apply abs_le_iff; lra).
  assert (- (/ 4503599627370496 * (50 * A + 197)) <= t5 - 9 * a
          <= / 4503599627370496 * (50 * A + 197)) as B5.
  { rewrite Hu in E5. apply abs_le_iff in E5. lra. }
  clear E5 M5.
  (* / 9 *)
  destruct (div_bound ((c * 9 / 5 + 32 - 32) * 5) 9 t5 9 H5 number_value_9)
    as (t6 & H6 & E6).
  { lra. }
  { apply abs_le_iff. lra. }
  assert (Rabs (t5 / 9) <= 2 * A + 1) as M6 by (apply abs_le_iff; lra).
  exists t6. split; [exact H6|].
  rewrite Hu in E6. apply abs_le_iff in E6. apply abs_le_iff. lra.
Qed.

End RealValue.

(** C7, as amended. Zero degrees Celsius are 32 degrees Fahrenheit and 100
    are 212, in both components, which convert alike. For every Celsius
    value [c] that is a number [v] of magnitude at most [2^1020], converting
    to Fahrenheit and back gives a number again, and it differs from [v] by
    at most [2^-49 * (|v| + 32)]. *)
Theorem fahrenheit_round_trip :
  WeatherCard.convertToFahrenheit 0 = 32%float /\
  WeatherCard.convertToFahrenheit 100 = 212%float /\
  ForecastCard.convertToFahrenheit 0 = 32%float /\
  ForecastCard.convertToFahrenheit 100 = 212%float /\
  (forall c, ForecastCard.convertToFahrenheit c
             = WeatherCard.convertToFahrenheit c) /\
  (forall (c : float) (v : R),
     number_value c = Some v ->
     (Rabs v <= powerRZ 2 1020)%R ->
     exists v',
       number_value (convertToCelsius (WeatherCard.convertToFahrenheit c))
         = Some v' /\
       (Rabs (v' - v) <= powerRZ 2 (-49) * (Rabs v + 32))%R).
Proof.
  repeat split; try (vm_compute; reflexivity).
  intros c v Hc Hv. exact (round_trip_bound c v Hc Hv).
Qed.

Lemma fahrenheit_round_trip_witness :
  number_value 100 = Some 100%R /\
  (Rabs 100 <= powerRZ 2 1020)%R /\
  exists v',
    number_value (convertToCelsius (WeatherCard.convertToFahrenheit 100))
      = Some v' /\
    (Rabs (v' - 100) <= powerRZ 2 (-49) * (Rabs 100 + 32))%R.
Proof.
  assert (Rabs 100 <= powerRZ 2 1020)%R as Hsmall.
  { rewrite Rabs_right by lra. pose proof pow2_1020_large. lra. }
  split; [exact number_value_100|]. split; [exact Hsmall|].
  exact (proj2 (proj2 (proj2 (proj2 (proj2 fahrenheit_round_trip))))
           100%float 100%R number_value_100 Hsmall).
Defined.

(** C7, as stated, fails: [huge] is the number [2^1023], its conversion
    to Fahrenheit is infinite, and so is what comes back, which is no
    number at all. *)
Lemma round_trip_overflows :
  is_finite huge = true /\
  number_value huge = Some (powerRZ 2 1023) /\
  WeatherCard.convertToFahrenheit huge = infinity /\
  convertToCelsius (WeatherCard.convertToFahrenheit huge) = infinity /\
  abs (convertToCelsius (WeatherCard.convertToFahrenheit huge) - huge)
    = infinity /\
  number_value (convertToCelsius (WeatherCard.convertToFahrenheit huge))
    = None.
Proof.
  split; [vm_compute; reflexivity|]. split.
  - unfold number_value.
    replace (Prim2SF huge) with (S754_finite false 4503599627370496 971)
      by (vm_compute; reflexivity).
    cbn [SF2R sgn]. f_equal. change 4503599627370496%Z with (2 ^ 52)%Z.
    rewrite IZR_pow2 by lia. rewrite Rmult_1_l, <- pow2_add. reflexivity.
  - repeat split; vm_compute; reflexivity.
Qed.

(** C10. The displayed temperature is the stored one in Celsius and its
    conversion in Fahrenheit, in both components; the unit toggle flips the
    unit and leaves the weather, the forecast and the rest of the page
    state as they are. *)
Theorem unit_toggle_is_display_only :
  (forall t, WeatherCard.displayTemp C t = t) /\
  (forall t, WeatherCard.displayTemp F t = WeatherCard.convertToFahrenheit t) /\
  (forall t, ForecastCard.displayTemp C t = t) /\
  (forall t, ForecastCard.displayTemp F t
             = ForecastCard.convertToFahrenheit t) /\
  (forall s : App.state,
     App.currentWeather (App.onUnitToggle s) = App.currentWeather s /\
     App.forecast (App.onUnitToggle s) = App.forecast s /\
     App.loading (App.onUnitToggle s) = App.loading s /\
     App.error (App.onUnitToggle s) = App.error s /\
     App.unit (App.onUnitToggle s)
       = match App.unit s with C => F | F => C end /\
     App.onUnitToggle (App.onUnitToggle s) = s).
Proof.
  repeat split.
  destruct s as [cw fc ld err [|]]; reflexivity.
Qed.

(** * Further properties *)

(** ** Removing, adding and toggling favorites *)

Section MoreFavoritesFacts.

Import Favorites.

Lemma some_id_filter_other (target other : jsstring)
    (favs : list FavoriteCity) :
  other <> target ->
  some_id other
    (List.filter (fun f => negb (bool_decide (id f = target))) favs)
  = some_id other favs.
Proof.
  intros Hne. induction favs as [|f favs IH]; [reflexivity|].
  cbn [List.filter]. destruct (decide (id f = target)) as [Heq|Hneq].
  - rewrite (bool_decide_eq_true_2 _ Heq). cbn [negb].
    unfold some_id in *. cbn [existsb]. rewrite IH.
    assert (bool_decide (id f = other) = false) as ->; [|reflexivity].
    apply bool_decide_eq_false_2. congruence.
  - rewrite (bool_decide_eq_false_2 _ Hneq). cbn [negb].
    unfold some_id in *. cbn [existsb]. now rewrite IH.
Qed.

Lemma filter_absent_id (target : jsstring) (favs : list FavoriteCity) :
  some_id target favs = false ->
  List.filter (fun f => negb (bool_decide (id f = target))) favs = favs.
Proof.
  induction favs as [|f favs IH]; [reflexivity|].
  unfold some_id. cbn [existsb List.filter].
  intros H. apply orb_false_iff in H as [Hf Hrest].
  rewrite Hf. cbn [negb]. f_equal. now apply IH.
Qed.

Lemma some_id_removed (target : jsstring) (favs : list FavoriteCity) :
  some_id target (removeFavorite target favs) = false.
Proof.
  apply some_id_false. intros f Hin Hid.
  apply filter_In in Hin as [_ Hkeep].
  apply negb_true_iff, bool_decide_eq_false in Hkeep. contradiction.
Qed.

Lemma remove_added (city : FavoriteCity) (prev : list FavoriteCity) :
  some_id (id city) prev = false ->
  removeFavorite (id city) (addFavorite city prev) = prev.
Proof.
  intros Habsent. unfold addFavorite. rewrite Habsent.
  unfold removeFavorite. rewrite List.filter_app.
  rewrite (filter_absent_id _ _ Habsent). cbn [List.filter].
  rewrite bool_decide_eq_true_2 by reflexivity. cbn [negb].
  apply app_nil_r.
Qed.

(** Splitting at a separator that occurs in neither right part. *)
Lemma split_at_last (d : N) (a1 : list N) :
  forall a2 b1 b2,
    a1 ++ d :: b1 = a2 ++ d :: b2 -> ~ In d b1 -> ~ In d b2 ->
    a1 = a2 /\ b1 = b2.
Proof.
  induction a1 as [|x a1 IH]; intros [|y a2] b1 b2 Heq H1 H2;
    cbn [app] in Heq.
  - injection Heq as ->. now split.
  - injection Heq as -> ->. exfalso. apply H1. apply in_elt.
  - injection Heq as -> <-. exfalso. apply H2. apply in_elt.
  - injection Heq as -> Heq. destruct (IH _ _ _ Heq H1 H2) as [-> ->].
    now split.
Qed.

End MoreFavoritesFacts.

(** X1. [removeFavorite] removes every entry with the given id and nothing
    else: afterwards the id is no favorite, every other id is a favorite
    exactly when it was before, and when the id was not there the list is
    returned as it was. *)
Theorem remove_clears_one_id (target : jsstring) (favs : list FavoriteCity) :
  Favorites.isFavorite target (Favorites.removeFavorite target favs) = false /\
  (forall other, other <> target ->
     Favorites.isFavorite other (Favorites.removeFavorite target favs)
     = Favorites.isFavorite other favs) /\
  (Favorites.isFavorite target favs = false ->
     Favorites.removeFavorite target favs = favs).
Proof.
  unfold Favorites.isFavorite. split; [|split].
  - apply some_id_removed.
  - intros other Hne. now apply some_id_filter_other.
  - apply filter_absent_id.
Qed.

Lemma remove_clears_one_id_witness :
  Favorites.isFavorite (id london)
    (Favorites.removeFavorite (id paris) [paris; london])
  = Favorites.isFavorite (id london) [paris; london] /\
  Favorites.removeFavorite (id paris) [london] = [london].
Proof.
  split.
  - apply (proj1 (proj2 (remove_clears_one_id (id paris) [paris; london]))).
    discriminate.
  - apply (proj2 (proj2 (remove_clears_one_id (id paris) [london]))).
    reflexivity.
Defined.

(** X2. Removing a city that was just added to a list without its id gives
    the list back. *)
Theorem remove_undoes_add (city : FavoriteCity) (prev : list FavoriteCity) :
  Favorites.isFavorite (id city) prev = false ->
  Favorites.removeFavorite (id city) (Favorites.addFavorite city prev) = prev.
Proof.
  unfold Favorites.isFavorite. apply remove_added.
Qed.

Lemma remove_undoes_add_witness :
  Favorites.removeFavorite (id london) (Favorites.addFavorite london [paris])
  = [paris].
Proof. apply remove_undoes_add. reflexivity. Defined.

(** X3. Pressing the heart flips it: after [handleFavoriteToggle] the city
    of the card is a favorite exactly when it was not before, whatever the
    list. Starting from a list without the city, a second press gives the
    list back. *)
Theorem heart_toggle_flips
    (weather : CurrentWeather) (favs : list FavoriteCity) :
  let toggle l :=
    Favorites.apply_operation (WeatherCard.handleFavoriteToggle weather l) l in
  Favorites.isFavorite (WeatherCard.favoriteId weather) (toggle favs)
  = negb (Favorites.isFavorite (WeatherCard.favoriteId weather) favs) /\
  (Favorites.isFavorite (WeatherCard.favoriteId weather) favs = false ->
   toggle (toggle favs) = favs).
Proof.
  cbv zeta.
  assert (forall l,
    Favorites.isFavorite (WeatherCard.favoriteId weather)
      (Favorites.apply_operation
         (WeatherCard.handleFavoriteToggle weather l) l)
    = negb (Favorites.isFavorite (WeatherCard.favoriteId weather) l)) as Hflip.
  { intros l. unfold WeatherCard.handleFavoriteToggle.
    destruct (Favorites.isFavorite (WeatherCard.favoriteId weather) l) eqn:Hfav;
      cbn [Favorites.apply_operation negb].
    - apply some_id_removed.
    - apply (some_id_addFavorite (WeatherCard.favorite_of weather)). }
  split; [apply Hflip|].
  intros Habsent.
  unfold WeatherCard.handleFavoriteToggle at 1. rewrite Hflip, Habsent.
  cbn [negb Favorites.apply_operation].
  unfold WeatherCard.handleFavoriteToggle. rewrite Habsent.
  cbn [Favorites.apply_operation].
  now apply (remove_added (WeatherCard.favorite_of weather)).
Qed.

Lemma heart_toggle_flips_witness :
  Favorites.apply_operation
    (WeatherCard.handleFavoriteToggle london_weather
       (Favorites.apply_operation
          (WeatherCard.handleFavoriteToggle london_weather [paris]) [paris]))
    (Favorites.apply_operation
       (WeatherCard.handleFavoriteToggle london_weather [paris]) [paris])
  = [paris].
Proof.
  apply (proj2 (heart_toggle_flips london_weather [paris])). reflexivity.
Defined.

(** X4. The derived id does not tell cities apart in general: a card for
    the city [a-b] in country [c] and a card for the city [a] in country
    [b-c] have the same id, so once one of them is a favorite the heart of
    the other is filled and adding the other changes nothing. *)
Theorem favoriteId_collision
    (w1 w2 : CurrentWeather) (a b c : jsstring) (favs : list FavoriteCity) :
  city_name w1 = template_dash a b -> cw_country w1 = c ->
  city_name w2 = a -> cw_country w2 = template_dash b c ->
  WeatherCard.favoriteId w1 = WeatherCard.favoriteId w2 /\
  Favorites.isFavorite (WeatherCard.favoriteId w2)
    (Favorites.addFavorite (WeatherCard.favorite_of w1) favs) = true /\
  Favorites.addFavorite (WeatherCard.favorite_of w2)
    (Favorites.addFavorite (WeatherCard.favorite_of w1) favs)
  = Favorites.addFavorite (WeatherCard.favorite_of w1) favs.
Proof.
  intros Hn1 Hc1 Hn2 Hc2.
  assert (WeatherCard.favoriteId w1 = WeatherCard.favoriteId w2) as Hid.
  { unfold WeatherCard.favoriteId, template_dash.
    rewrite Hn1, Hc1, Hn2, Hc2. unfold template_dash.
    now rewrite <- app_assoc. }
  assert (Favorites.some_id (WeatherCard.favoriteId w2)
            (Favorites.addFavorite (WeatherCard.favorite_of w1) favs) = true)
    as Hfav.
  { rewrite <- Hid.
    apply (some_id_addFavorite (WeatherCard.favorite_of w1)). }
  split; [exact Hid|]. split; [exact Hfav|].
  unfold Favorites.addFavorite at 1.
  change (id (WeatherCard.favorite_of w2)) with (WeatherCard.favoriteId w2).
  now rewrite Hfav.
Qed.

Lemma favoriteId_collision_witness :
  WeatherCard.favoriteId stratford_weather
  = WeatherCard.favoriteId upon_avon_weather /\
  Favorites.isFavorite (WeatherCard.favoriteId upon_avon_weather)
    (Favorites.addFavorite (WeatherCard.favorite_of stratford_weather) [])
  = true.
Proof.
  destruct (favoriteId_collision stratford_weather upon_avon_weather
              (js "Stratford") (js "upon") (js "Avon") [])
    as (Hid & Hfav & _); try reflexivity.
  now split.
Defined.

(** X5. When no country contains a hyphen, the derived id does tell
    cities apart: two cards with the same id have the same city name and
    the same country. *)
Theorem favoriteId_injective (w1 w2 : CurrentWeather) :
  ~ In dash (cw_country w1) -> ~ In dash (cw_country w2) ->
  WeatherCard.favoriteId w1 = WeatherCard.favoriteId w2 ->
  city_name w1 = city_name w2 /\ cw_country w1 = cw_country w2.
Proof.
  unfold WeatherCard.favoriteId, template_dash. intros H1 H2 Heq.
  now apply (split_at_last dash).
Qed.

Lemma favoriteId_injective_witness :
  city_name london_weather = city_name london_weather /\
  cw_country london_weather = cw_country london_weather.
Proof.
  apply favoriteId_injective.
  - vm_compute. intuition discriminate.
  - vm_compute. intuition discriminate.
  - reflexivity.
Defined.

(** ** Storage across instances and restarts *)

Section MoreStoreFacts.

Import UseFavorites.

Lemma hydrate_own_record (w : world) (favs : list FavoriteCity) :
  getItem STORAGE_KEY w = Some (FavoriteJson.stringify_favorites favs) ->
  hydrate w = Hydrated favs.
Proof. unfold hydrate. intros ->. apply initializer_of_own_text. Qed.

Lemma toggle_is_new (weather : CurrentWeather) (favs : list FavoriteCity) :
  returns_prev (WeatherCard.handleFavoriteToggle weather favs) favs = false.
Proof.
  unfold WeatherCard.handleFavoriteToggle, Favorites.isFavorite.
  destruct (Favorites.some_id (WeatherCard.favoriteId weather) favs) eqn:Hfav;
    [reflexivity|exact Hfav].
Qed.

Lemma dispatch_new (op : Favorites.operation) (favs : list FavoriteCity)
    (w : world) :
  returns_prev op favs = false ->
  dispatch op (favs, w)
  = (Favorites.apply_operation op favs,
     persist (Favorites.apply_operation op favs) w).
Proof. intros Hnew. unfold dispatch. now rewrite Hnew. Qed.

Lemma press_heart_eq (weather : CurrentWeather) (m : Components.mounted) :
  let card' :=
    Favorites.apply_operation
      (WeatherCard.handleFavoriteToggle weather (Components.card m))
      (Components.card m) in
  Components.press_heart weather m
  = {| Components.card := card';
       Components.panel := Components.panel m;
       Components.outside := persist card' (Components.outside m) |}.
Proof.
  cbv zeta. unfold Components.press_heart.
  now rewrite (dispatch_new _ _ _ (toggle_is_new weather (Components.card m))).
Qed.

Lemma press_remove_eq (target : jsstring) (m : Components.mounted) :
  let panel' := Favorites.removeFavorite target (Components.panel m) in
  Components.press_remove target m
  = {| Components.card := Components.card m;
       Components.panel := panel';
       Components.outside := persist panel' (Components.outside m) |}.
Proof. reflexivity. Qed.

Lemma mount_both_own_record (w : world) (favs : list FavoriteCity) :
  getItem STORAGE_KEY w = Some (FavoriteJson.stringify_favorites favs) ->
  exists m, Components.mount_both w = Some m /\
            Components.card m = favs /\ Components.panel m = favs.
Proof.
  intros Hrec. unfold Components.mount_both.
  rewrite (hydrate_own_record _ _ Hrec). eexists. now split.
Qed.

End MoreStoreFacts.

(** X6. Favorites survive a restart: whatever calls of add and remove a
    mounted instance has made, an instance mounted afterwards over the
    storage it left starts with exactly its list. *)
Theorem favorites_survive_restart
    (w w0 : UseFavorites.world) (favs0 : list FavoriteCity)
    (ops : list Favorites.operation) :
  UseFavorites.mount w = Some (favs0, w0) ->
  let favs := fst (UseFavorites.run ops (favs0, w0)) in
  let w' := snd (UseFavorites.run ops (favs0, w0)) in
  UseFavorites.hydrate w' = UseFavorites.Hydrated favs /\
  UseFavorites.mount w' = Some (favs, UseFavorites.persist favs w').
Proof.
  intros Hmount. cbv zeta.
  pose proof (mounted_instance_record w ops favs0 w0 Hmount) as Hrec.
  apply hydrate_own_record in Hrec.
  split; [exact Hrec|].
  unfold UseFavorites.mount. now rewrite Hrec.
Qed.

Lemma favorites_survive_restart_witness :
  UseFavorites.hydrate
    (snd (UseFavorites.run
            [Favorites.Add london; Favorites.Remove (id paris)]
            ([paris], UseFavorites.persist [paris] paris_world)))
  = UseFavorites.Hydrated [london].
Proof.
  refine (proj1 (favorites_survive_restart paris_world
            (UseFavorites.persist [paris] paris_world) [paris]
            [Favorites.Add london; Favorites.Remove (id paris)] _)).
  reflexivity.
Defined.

(** X7. A press of the heart always writes: the handler never asks for an
    add that would change nothing, so every press is followed by exactly
    one [setItem] with the card's new list, and the list of the favorites
    panel stays what it was. Likewise the remove button writes the panel's
    new list and leaves the card's list alone. *)
Theorem every_press_writes_own_list
    (weather : CurrentWeather) (target : jsstring) (m : Components.mounted) :
  let m1 := Components.press_heart weather m in
  let m2 := Components.press_remove target m in
  UseFavorites.setItem_log (Components.outside m1)
  = UseFavorites.setItem_log (Components.outside m)
    ++ [(UseFavorites.STORAGE_KEY,
         FavoriteJson.stringify_favorites (Components.card m1))] /\
  Components.panel m1 = Components.panel m /\
  UseFavorites.setItem_log (Components.outside m2)
  = UseFavorites.setItem_log (Components.outside m)
    ++ [(UseFavorites.STORAGE_KEY,
         FavoriteJson.stringify_favorites (Components.panel m2))] /\
  Components.card m2 = Components.card m.
Proof.
  cbv zeta. rewrite press_heart_eq, press_remove_eq. now repeat split.
Qed.

(** X8. Mounting again brings the two components back together: after a
    press of the heart, components mounted over the storage it left both
    start with the card's list; after a press of a remove button, both
    start with the panel's list. *)
Theorem remount_follows_last_writer
    (weather : CurrentWeather) (target : jsstring) (m : Components.mounted) :
  (exists m', Components.mount_both
                (Components.outside (Components.press_heart weather m))
              = Some m' /\
     Components.card m' = Components.card (Components.press_heart weather m) /\
     Components.panel m' = Components.card (Components.press_heart weather m)) /\
  (exists m', Components.mount_both
                (Components.outside (Components.press_remove target m))
              = Some m' /\
     Components.card m'
       = Components.panel (Components.press_remove target m) /\
     Components.panel m'
       = Components.panel (Components.press_remove target m)).
Proof.
  split.
  - apply mount_both_own_record. rewrite press_heart_eq. cbv zeta.
    apply getItem_setItem.
  - apply mount_both_own_record. rewrite press_remove_eq. cbv zeta.
    apply getItem_setItem.
Qed.

(** ** What every run of the search controller keeps *)

Section MoreSearchFacts.

Import SearchBar SearchTrace.

Lemma query_effect_timer_ok (value : jsstring) (s : state) :
  timer_ok (query_effect value s).
Proof.
  unfold timer_ok, query_effect.
  destruct (length value <? 2)%nat eqn:Hshort; cbn [pending query].
  - exact I.
  - apply Nat.ltb_ge in Hshort. cbn [captured remaining]. unfold DELAY.
    repeat split; lia.
Qed.

Lemma setQuery_timer_ok (value : jsstring) (s : state) :
  timer_ok s -> timer_ok (setQuery value s).
Proof.
  intros Hok. unfold setQuery.
  destruct (bool_decide (value = query s)); [exact Hok|].
  apply query_effect_timer_ok.
Qed.

Lemma step_timer_ok (e : event) (s : state) :
  timer_ok s -> timer_ok (step e s).
Proof.
  intros Hok. destruct e as [value|ms|response|error| |city]; cbn [step].
  - now apply setQuery_timer_ok.
  - unfold elapse, timer_ok in *.
    destruct (pending s) as [t|] eqn:Hpending; [|now rewrite Hpending].
    destruct Hok as (Hcap & Hlen & Hrem).
    destruct (remaining t <=? ms)%nat eqn:Hfire.
    + exact I.
    + apply Nat.leb_gt in Hfire. cbn [pending query captured remaining].
      repeat split; try assumption; lia.
  - exact Hok.
  - exact Hok.
  - exact Hok.
  - apply (setQuery_timer_ok [] s) in Hok. exact Hok.
Qed.

Lemma run_timer_ok (events : list event) :
  forall s, timer_ok s -> timer_ok (run events s).
Proof.
  unfold run. induction events as [|e events IH]; intros s Hok; [exact Hok|].
  cbn [fold_left]. apply IH. now apply step_timer_ok.
Qed.

Lemma initial_timer_ok : timer_ok initial.
Proof. exact I. Qed.

(** The calls of a state after one event: those before, and the captured
    query when a timer fired. *)
Lemma step_calls (e : event) (s : state) :
  calls (step e s) = calls s \/
  exists t ms, e = Elapse ms /\ pending s = Some t /\
               (remaining t <= ms)%nat /\
               calls (step e s) = calls s ++ [captured t] /\
               pending (step e s) = None.
Proof.
  destruct e as [value|ms|response|error| |city]; cbn [step];
    try (left; reflexivity).
  - left. unfold setQuery. destruct (bool_decide (value = query s));
      [reflexivity|]. apply query_effect_fields.
  - unfold elapse. destruct (pending s) as [t|] eqn:Hpending;
      [|left; reflexivity].
    destruct (remaining t <=? ms)%nat eqn:Hfire; [|left; reflexivity].
    right. exists t, ms. apply Nat.leb_le in Hfire. now repeat split.
  - left. unfold handleSelect, setQuery. cbn [calls].
    destruct (decide ([] = query s)) as [Hsame|Hnew].
    + now rewrite (bool_decide_eq_true_2 _ Hsame).
    + rewrite (bool_decide_eq_false_2 _ Hnew). apply query_effect_fields.
Qed.

Lemma run_calls_long (events : list event) :
  forall s,
    timer_ok s -> Forall (fun q => (2 <= length q)%nat) (calls s) ->
    Forall (fun q => (2 <= length q)%nat) (calls (run events s)).
Proof.
  unfold run. induction events as [|e events IH]; intros s Hok Hlong;
    [exact Hlong|].
  cbn [fold_left]. apply IH; [now apply step_timer_ok|].
  destruct (step_calls e s) as [->|(t & ms & _ & Hpending & _ & -> & _)];
    [exact Hlong|].
  apply Forall_app. split; [exact Hlong|].
  unfold timer_ok in Hok. rewrite Hpending in Hok.
  destruct Hok as (Hcap & Hlen & _). rewrite Hcap.
  constructor; [exact Hlen|constructor].
Qed.

End MoreSearchFacts.

Section SearchBudget.

Import SearchBar SearchTrace.

Lemma query_effect_budget (value : jsstring) (s : state) (e t : nat) :
  timer_ok s -> within_budget s e t ->
  within_budget (query_effect value s) (S e) t.
Proof.
  unfold within_budget, timer_ok, query_effect. intros Hok [He Ht].
  destruct (length value <? 2)%nat; cbn [calls pending remaining];
    destruct (pending s) as [p|]; unfold DELAY in *; split; lia.
Qed.

Lemma setQuery_budget (value : jsstring) (s : state) (e t : nat) :
  timer_ok s -> within_budget s e t ->
  within_budget (setQuery value s) (S e) t.
Proof.
  intros Hok Hb. unfold setQuery.
  destruct (decide (value = query s)) as [Hsame|Hnew].
  - rewrite (bool_decide_eq_true_2 _ Hsame).
    destruct Hb as [He Ht]. split; [lia|exact Ht].
  - rewrite (bool_decide_eq_false_2 _ Hnew). now apply query_effect_budget.
Qed.

Lemma run_budget (events : list event) :
  forall s e t,
    timer_ok s -> within_budget s e t ->
    within_budget (run events s) (e + edits events) (t + elapsed events).
Proof.
  unfold run. induction events as [|ev events IH]; intros s e t Hok Hb.
  - cbn [fold_left edits elapsed]. now rewrite !Nat.add_0_r.
  - cbn [fold_left]. pose proof (step_timer_ok ev s Hok) as Hok'.
    destruct ev as [value|ms|response|error| |city];
      cbn [edits elapsed].
    + replace (e + S (edits events))%nat with (S e + edits events)%nat by lia.
      apply IH; [exact Hok'|]. cbn [step]. now apply setQuery_budget.
    + replace (t + (ms + elapsed events))%nat
        with ((t + ms) + elapsed events)%nat by lia.
      apply IH; [exact Hok'|]. cbn [step].
      unfold within_budget, timer_ok, elapse in *. destruct Hb as [He Ht].
      destruct (pending s) as [p|] eqn:Hpending.
      * destruct Hok as (_ & _ & Hrem).
        destruct (remaining p <=? ms)%nat eqn:Hfire.
        -- apply Nat.leb_le in Hfire. unfold fire. cbn [calls pending].
           rewrite length_app. cbn [length]. unfold DELAY in *.
           split; lia.
        -- apply Nat.leb_gt in Hfire. cbn [calls pending remaining].
           unfold DELAY in *. split; lia.
      * rewrite Hpending. split; lia.
    + apply IH; [exact Hok'|exact Hb].
    + apply IH; [exact Hok'|exact Hb].
    + apply IH; [exact Hok'|exact Hb].
    + replace (e + S (edits events))%nat with (S e + edits events)%nat by lia.
      apply IH; [exact Hok'|]. cbn [step]. unfold handleSelect.
      apply (setQuery_budget [] s e t Hok) in Hb. exact Hb.
Qed.

Lemma run_keeps_spinner (events : list event) :
  forall s,
    isLoading s = true -> no_response events = true ->
    isLoading (run events s) = true.
Proof.
  unfold run, no_response.
  induction events as [|ev events IH]; intros s Hon Hnone; [exact Hon|].
  cbn [fold_left forallb] in *. apply andb_true_iff in Hnone as [Hev Hnone].
  apply IH; [|exact Hnone].
  destruct ev as [value|ms|response|error| |city]; try discriminate;
    cbn [step].
  - unfold setQuery. destruct (bool_decide (value = query s)); [exact Hon|].
    unfold query_effect. now destruct (length value <? 2)%nat.
  - unfold elapse. destruct (pending s) as [p|]; [|exact Hon].
    now destruct (remaining p <=? ms)%nat.
  - exact Hon.
  - unfold handleSelect, setQuery. cbn [isLoading].
    destruct (decide ([] = query s)) as [Hsame|Hnew].
    + now rewrite (bool_decide_eq_true_2 _ Hsame).
    + now rewrite (bool_decide_eq_false_2 _ Hnew).
Qed.

Lemma setQuery_new (value : jsstring) (s : state) :
  value <> query s -> setQuery value s = query_effect value s.
Proof.
  intros Hnew. unfold setQuery. now rewrite (bool_decide_eq_false_2 _ Hnew).
Qed.

End SearchBudget.

(** X9. In every state the component reaches, a pending timer belongs to
    the text now in the input: it captured exactly that text, the text has
    at least two characters, and it fires in at most the full delay. *)
Theorem pending_timer_is_for_current_query (events : list SearchBar.event) :
  let s := SearchBar.run events SearchBar.initial in
  match SearchBar.pending s with
  | Some t =>
    SearchBar.captured t = SearchBar.query s /\
    (2 <= length (SearchBar.query s))%nat /\
    (0 < SearchBar.remaining t <= SearchBar.DELAY)%nat
  | None => True
  end.
Proof. exact (run_timer_ok events _ initial_timer_ok). Qed.

(** X10. The component never searches for less than two characters: every
    query it has passed to [searchCities], after any events, has length at
    least two. *)
Theorem no_call_shorter_than_two (events : list SearchBar.event) :
  Forall (fun q => (2 <= length q)%nat)
         (SearchBar.calls (SearchBar.run events SearchBar.initial)).
Proof. apply run_calls_long; [exact initial_timer_ok|constructor]. Qed.

(** X11. Debouncing bounds the traffic: after any events, the number of
    search calls is at most the number of edits (input changes and
    selections), and 300 ms times the number of calls is at most the time
    that has gone by. *)
Theorem calls_bounded_by_edits_and_time (events : list SearchBar.event) :
  let n := length (SearchBar.calls (SearchBar.run events SearchBar.initial)) in
  (n <= SearchTrace.edits events)%nat /\
  (SearchBar.DELAY * n <= SearchTrace.elapsed events)%nat.
Proof.
  cbv zeta.
  assert (SearchTrace.within_budget SearchBar.initial 0 0) as H0
    by (split; cbn; lia).
  destruct (run_budget events _ 0%nat 0%nat initial_timer_ok H0) as [He Ht].
  cbn [Nat.add] in He, Ht. split; lia.
Qed.

(** X12. Only the outcome of a search call stops the spinner: once it is
    on, no change of the input, wait, click outside or selection turns it
    off. So a query of two characters or more that is cut below two before
    the delay is over leaves the spinner on with no timer pending and no
    call made, however long one waits. *)
Theorem spinner_waits_for_a_response :
  (forall events s,
     SearchBar.isLoading s = true ->
     SearchTrace.no_response events = true ->
     SearchBar.isLoading (SearchBar.run events s) = true) /\
  (forall long short ms,
     (2 <= length long)%nat -> (length short < 2)%nat ->
     let s := SearchBar.run [SearchBar.Change long; SearchBar.Change short]
                SearchBar.initial in
     SearchBar.spinner (SearchBar.render s) = true /\
     SearchBar.pending s = None /\ SearchBar.calls s = [] /\
     SearchBar.spinner
       (SearchBar.render (SearchBar.step (SearchBar.Elapse ms) s)) = true).
Proof.
  split; [exact run_keeps_spinner|].
  intros long short ms Hlong Hshort. cbv zeta.
  assert (long <> SearchBar.query SearchBar.initial) as Hnew1.
  { cbn. intros ->. cbn in Hlong. lia. }
  assert (short <> long) as Hnew2 by (intros ->; lia).
  unfold SearchBar.run. cbn [fold_left SearchBar.step].
  rewrite (setQuery_new long _ Hnew1).
  assert (SearchBar.query_effect long SearchBar.initial
          = {| SearchBar.query := long; SearchBar.found := [];
               SearchBar.isOpen := false; SearchBar.isLoading := true;
               SearchBar.pending :=
                 Some {| SearchBar.remaining := SearchBar.DELAY;
                         SearchBar.captured := long |};
               SearchBar.calls := []; SearchBar.console := [];
               SearchBar.selected := [] |}) as ->.
  { unfold SearchBar.query_effect.
    assert ((length long <? 2)%nat = false) as -> by (apply Nat.ltb_ge; lia).
    reflexivity. }
  rewrite setQuery_new by exact Hnew2.
  unfold SearchBar.query_effect.
  assert ((length short <? 2)%nat = true) as -> by (apply Nat.ltb_lt; lia).
  repeat split.
Qed.

Lemma spinner_waits_for_a_response_witness :
  SearchBar.spinner
    (SearchBar.render
       (SearchBar.step (SearchBar.Elapse 3000)
          (SearchBar.run [SearchBar.Change (js "Lo"); SearchBar.Change (js "L")]
             SearchBar.initial))) = true.
Proof.
  refine (proj2 (proj2 (proj2
    (proj2 spinner_waits_for_a_response (js "Lo") (js "L") 3000%nat _ _)))).
  - simpl. lia.
  - simpl. lia.
Defined.

(** X13. Selecting a result, in any state the component reaches, passes
    the composed city string to the parent and resets the search: the
    input is empty, no timer is pending, no dropdown is rendered, and no
    call follows however long one waits. The composed string is the name,
    then the state if there is one and it is not the empty string, then the
    country, separated by a comma and a space. *)
Theorem select_resets_search
    (events : list SearchBar.event) (city : CitySearchResult) (ms : nat) :
  let s := SearchBar.run events SearchBar.initial in
  let s' := SearchBar.step (SearchBar.Select city) s in
  SearchBar.cityName city
    = csr_name city ++ SearchBar.comma_space
      ++ match csr_state city with
         | Some (c :: st) => (c :: st) ++ SearchBar.comma_space
         | _ => []
         end
      ++ csr_country city /\
  SearchBar.cityName london_result = js "London, England, GB" /\
  SearchBar.cityName springfield_result = js "Springfield, US" /\
  SearchBar.cityName paris_result = js "Paris, FR" /\
  SearchBar.selected s' = SearchBar.selected s ++ [SearchBar.cityName city] /\
  SearchBar.query s' = [] /\
  SearchBar.pending s' = None /\
  SearchBar.dropdown (SearchBar.render s') = None /\
  SearchBar.calls s' = SearchBar.calls s /\
  SearchBar.calls (SearchBar.step (SearchBar.Elapse ms) s') = SearchBar.calls s.
Proof.
  cbv zeta.
  split.
  { destruct city as [n c [[|ch st]|] la lo]; unfold SearchBar.cityName;
      cbn [csr_name csr_state csr_country]; rewrite <- ?app_assoc;
      reflexivity. }
  do 3 (split; [vm_compute; reflexivity|]).
  pose proof (run_timer_ok events _ initial_timer_ok) as Hok.
  remember (SearchBar.run events SearchBar.initial) as s eqn:Hs. clear Hs.
  cbn [SearchBar.step]. unfold SearchBar.handleSelect, SearchBar.setQuery.
  destruct (decide ([] = SearchBar.query s)) as [Hsame|Hnew].
  - rewrite (bool_decide_eq_true_2 _ Hsame).
    assert (SearchBar.pending s = None) as Hnone.
    { unfold SearchTrace.timer_ok in Hok.
      destruct (SearchBar.pending s) as [t|]; [|reflexivity].
      destruct Hok as (_ & Hlen & _). rewrite <- Hsame in Hlen.
      cbn in Hlen. lia. }
    unfold SearchBar.render, SearchBar.elapse.
    cbn [SearchBar.selected SearchBar.query SearchBar.pending
         SearchBar.isOpen SearchBar.calls SearchBar.dropdown andb].
    rewrite Hnone. now repeat split.
  - rewrite (bool_decide_eq_false_2 _ Hnew).
    unfold SearchBar.query_effect. cbn [length Nat.ltb Nat.leb].
    unfold SearchBar.render, SearchBar.elapse.
    cbn [SearchBar.selected SearchBar.query SearchBar.pending
         SearchBar.isOpen SearchBar.calls SearchBar.dropdown andb].
    now repeat split.
Qed.

(** ** The page while fetching *)

Section FetchFacts.

Import Fetch.

Lemma or_else_nonempty (a : option jsstring) (b : jsstring) :
  b <> [] -> or_else a b <> [].
Proof. intros Hb. destruct a as [[|c s]|]; simpl; congruence. Qed.

Lemma errorMessage_nonempty (err : rejection) : errorMessage err <> [].
Proof.
  unfold errorMessage. apply or_else_nonempty, or_else_nonempty.
  discriminate.
Qed.


Lemma step_settled (e : event) (s : App.state) :
  settled s -> settled (step e s).
Proof.
  unfold settled. intros [Hboth Herr].
  destruct e as [|w f|err|]; cbn [step].
  - cbn. split; [exact Hboth|discriminate].
  - cbn. split; [|exact Herr]. split; intros _; eauto.
  - cbn. split.
    + split; intros [x Hx]; discriminate.
    + intros [= Hempty]. now apply (errorMessage_nonempty err).
  - destruct s as [cw fc ld er u]. cbn in *. now split.
Qed.

Lemma run_settled (events : list event) :
  forall s, settled s -> settled (run events s).
Proof.
  unfold run. induction events as [|e events IH]; intros s Hs; [exact Hs|].
  cbn [fold_left]. apply IH. now apply step_settled.
Qed.

Lemma initial_settled : settled initial.
Proof.
  split; [|discriminate]. cbn. split; intros [x Hx]; discriminate.
Qed.

End FetchFacts.

(** X14. Current weather and forecast always come together: after any
    sequence of fetches starting, succeeding and failing, and of unit
    toggles, the page state holds both or neither, so the page renders
    both cards or none; and an error kept in the state is never the empty
    string. *)
Theorem weather_and_forecast_come_together (events : list Fetch.event) :
  let s := Fetch.run events Fetch.initial in
  (is_Some (App.currentWeather s) <-> is_Some (App.forecast s)) /\
  (is_Some (Fetch.weather_card (Fetch.render s))
   <-> is_Some (Fetch.forecast_card (Fetch.render s))) /\
  App.error s <> Some [].
Proof.
  cbv zeta.
  destruct (run_settled events _ initial_settled) as [Hboth Herr].
  split; [exact Hboth|]. split; [|exact Herr].
  unfold Fetch.render. cbn [Fetch.weather_card Fetch.forecast_card].
  destruct (App.loading _); [|exact Hboth].
  split; intros [x Hx]; discriminate.
Qed.



(** X16. The page is never blank and its parts do not compete: in every
    state it shows the spinner, the error banner, the weather card or the
    hint; the hint is shown only without spinner, banner and card; and
    while the spinner is shown no card and no favorites panel is. *)
Theorem page_never_blank (s : App.state) :
  let p := Fetch.render s in
  (Fetch.spinner p = true \/ is_Some (Fetch.banner p)
   \/ is_Some (Fetch.weather_card p) \/ Fetch.hint p = true) /\
  (Fetch.hint p = true ->
   Fetch.spinner p = false /\ Fetch.banner p = None /\
   Fetch.weather_card p = None) /\
  (Fetch.spinner p = true ->
   Fetch.weather_card p = None /\ Fetch.forecast_card p = None /\
   Fetch.favorites_panel p = false /\ Fetch.hint p = false).
Proof.
  destruct s as [cw fc ld er u]. cbv zeta. unfold Fetch.render.
  cbn [App.currentWeather App.forecast App.loading App.error
       Fetch.spinner Fetch.banner Fetch.weather_card Fetch.forecast_card
       Fetch.favorites_panel Fetch.hint].
  destruct ld; cbn [negb andb].
  - split; [now left|]. split; [discriminate|]. now intros _.
  - destruct cw as [w|].
    + rewrite bool_decide_eq_true_2 by eauto. cbn [negb andb].
      split; [right; right; left; eauto|]. split; discriminate.
    + rewrite bool_decide_eq_false_2 by (intros [x Hx]; discriminate).
      cbn [negb andb].
      destruct (Fetch.truthy er) eqn:Htruthy; cbn [negb].
      * split; [right; left; destruct er; [eauto|discriminate]|].
        split; discriminate.
      * split; [now repeat right|]. split; [now intros _|discriminate].
Qed.

Lemma page_never_blank_witness :
  Fetch.spinner (Fetch.render Fetch.initial) = false /\
  Fetch.banner (Fetch.render Fetch.initial) = None /\
  Fetch.weather_card (Fetch.render Fetch.initial) = None.
Proof.
  apply (proj1 (proj2 (page_never_blank Fetch.initial))). reflexivity.
Defined.

(** ** The request paths *)

Section ApiFacts.

Import WeatherApi.







Lemma encodeURIComponent_no_surrogates (s : jsstring) :
  no_surrogates s = true -> is_Some (encodeURIComponent s).
Proof.
  unfold no_surrogates. induction s as [|c s IH]; [now eexists|].
  cbn [forallb encodeURIComponent]. intros H.
  apply andb_true_iff in H as [Hc Hs].
  apply andb_true_iff in Hc as [Hhigh Hlow].
  apply negb_true_iff in Hhigh, Hlow. rewrite Hhigh, Hlow.
  destruct (IH Hs) as [r ->]. destruct (is_unreserved c); now eexists.
Qed.

Lemma encodeURIComponent_unreserved (s : jsstring) :
  forallb is_unreserved s = true -> encodeURIComponent s = Some s.
Proof.
  induction s as [|c s IH]; [reflexivity|].
  cbn [forallb encodeURIComponent]. intros H.
  apply andb_true_iff in H as [Hc Hs]. now rewrite Hc, (IH Hs).
Qed.

End ApiFacts.



(** X18. Building a request path fails only on a lone surrogate: for a
    city name without surrogate code units the path is always built, and a
    name made of letters, digits and the marks [- _ . ! ~ * ' ( )] is sent
    as it is. *)
Theorem path_is_built_for_plain_text (city : jsstring) :
  (WeatherApi.no_surrogates city = true ->
   is_Some (WeatherApi.getCurrentWeather_path city) /\
   is_Some (WeatherApi.getForecast_path city)) /\
  (forallb WeatherApi.is_unreserved city = true ->
   WeatherApi.getCurrentWeather_path city = Some (js "/api/weather/" ++ city)).
Proof.
  unfold WeatherApi.getCurrentWeather_path, WeatherApi.getForecast_path.
  split.
  - intros Hplain.
    destruct (encodeURIComponent_no_surrogates _ Hplain) as [r ->].
    split; now eexists.
  - intros Hun. now rewrite (encodeURIComponent_unreserved _ Hun).
Qed.

Lemma path_is_built_for_plain_text_witness :
  is_Some (WeatherApi.getCurrentWeather_path (js "New York")) /\
  WeatherApi.getCurrentWeather_path (js "London")
  = Some (js "/api/weather/London").
Proof.
  split.
  - apply (proj1 (path_is_built_for_plain_text (js "New York"))).
    reflexivity.
  - apply (proj2 (path_is_built_for_plain_text (js "London"))).
    reflexivity.
Defined.
